(** * pkg/imgpkg/image/registry.go: a registry client facade

    A shallow embedding of the Go package [image]: the value types of
    [RegistryOpts] and of the transport it builds, the credential keychain,
    the bounded retry loop and the six facade methods, followed by the
    properties stated about them.

    The package does no work of its own on the wire: it calls the Go
    standard library ([x509], [ioutil], [time]) and go-containerregistry
    ([authn], [remote], [transport]). Those collaborators are the fields of
    the classes [Types] and [Library] below; every property is proved for
    all of their instances. Effects are explicit: a computation of the
    package is a function on a [State], which pairs the outside [World] with
    the [trace] of the calls made so far, in the order they were made. *)

From Stdlib Require Import ZArith List String Ascii Bool Lia.
Import ListNotations.

Local Open Scope string_scope.
Local Open Scope list_scope.

(** ** Values shared with the libraries *)

(** [time.Duration] is an int64 count of nanoseconds. *)
Definition Duration := Z.
Definition Nanosecond : Duration := 1%Z.
Definition Microsecond : Duration := (1000 * Nanosecond)%Z.
Definition Millisecond : Duration := (1000 * Microsecond)%Z.
Definition Second : Duration := (1000 * Millisecond)%Z.

(** [transport.ErrorCode] is a string type. *)
Definition ErrorCode := string.

(** [transport.Diagnostic]: one sub-error of a registry response. *)
Record Diagnostic := {
  Code : ErrorCode;
  Message : string
}.

(** [transport.Error]: the error the registry protocol reports, with the
    list of its sub-errors. Values are non-nil pointers. *)
Record transport_Error := {
  Errors : list Diagnostic;
  StatusCode : Z
}.

(** A Go [error] value, by dynamic type: [*transport.Error], which the
    retry loop singles out with a type assertion, or any other type, which
    the package only ever asks for its message ([errors.New], the result of
    [fmt.Errorf], a network error). [nil] is [None] in [option error]. *)
Inductive error :=
| errorString (s : string)
| regremtran_Error (tranErr : transport_Error).

(** A Go result pair [(T, error)]: the value when the error is nil. *)
Inductive result (A : Type) :=
| Ok (a : A)
| Err (err : error).
Arguments Ok {A} a.
Arguments Err {A} err.

(** [name.Registry], [name.Repository] and [name.Reference]. A registry is
    also the [authn.Resource] that a keychain resolves. *)
Record regname_Registry := { RegistryStr : string }.
Definition Resource := regname_Registry.
Record Repository := {
  repo_Registry : regname_Registry;
  RepositoryStr : string
}.
Record Reference := {
  ref_Context : Repository;
  Identifier : string
}.

(** [authn.Authenticator]: the three authenticators the package builds,
    and whatever else the default keychain hands out. *)
Inductive Authenticator :=
| Basic (Username Password : string)
| Bearer (Token : string)
| Anonymous
| FromConfig (cfg : string).

(** ** The package's configuration *)

Record RegistryOpts := {
  CACertPaths : list string;
  VerifyCerts : bool;
  Username : string;
  Password : string;
  Token : string;
  Anon : bool
}.

(** The zero value [RegistryOpts{}]: what a caller gets who sets no
    field. *)
Definition RegistryOpts_zero : RegistryOpts := {|
  CACertPaths := [];
  VerifyCerts := false;
  Username := "";
  Password := "";
  Token := "";
  Anon := false
|}.

Record Registry := { opts : RegistryOpts }.

Definition NewRegistry (opts : RegistryOpts) : Registry := {| opts := opts |}.

Record customRegistryKeychain := { kopts : RegistryOpts }.

Definition registryKeychain (i : Registry) : customRegistryKeychain :=
  {| kopts := opts i |}.

(** ** Formatting *)

(** An operand of a format verb: a string, or an error (possibly nil). *)
Inductive fmt_arg :=
| arg_string (s : string)
| arg_error (err : option error).

(** The library types of the model: the outside world the calls act on and
    the values the package only passes along. *)
Class Types := {
  World : Type;
  CertPool : Type;
  regv1_Image : Type;
  regv1_ImageIndex : Type;
  regv1_Descriptor : Type;
  remote_Descriptor : Type
}.

Section Model.

Context `{T : Types}.

(** ** The transport value *)

Record tls_Config := {
  RootCAs : CertPool;
  InsecureSkipVerify : bool
}.

Record net_Dialer := {
  Timeout : Duration;
  KeepAlive : Duration;
  DualStack : bool
}.

Inductive proxy_func := ProxyFromEnvironment.

Record http_Transport := {
  Proxy : proxy_func;
  DialContext : net_Dialer;
  MaxIdleConns : Z;
  IdleConnTimeout : Duration;
  TLSHandshakeTimeout : Duration;
  ResponseHeaderTimeout : Duration;
  ExpectContinueTimeout : Duration;
  TLSClientConfig : tls_Config
}.

(** [remote.Option]: the three options the package passes. *)
Inductive remote_Option :=
| WithTransport (t : http_Transport)
| WithAuth (auth : Authenticator)
| WithAuthFromKeychain (keys : customRegistryKeychain).

(** ** The libraries *)

(** What the package calls and does not define. Reads of the platform (the
    system trust store, a file, the stored logins) observe the world;
    registry calls also change it; [elapse] is how the world moves while
    the caller sleeps. *)
Class Library := {
  elapse : Duration -> World -> World;
  x509_SystemCertPool : World -> result CertPool;
  x509_NewCertPool : CertPool;
  AppendCertsFromPEM : CertPool -> list Byte.byte -> CertPool * bool;
  ioutil_ReadFile : string -> World -> result (list Byte.byte);
  DefaultKeychain_Resolve : Resource -> World -> result Authenticator;
  regremote_Get :
    Reference -> list remote_Option -> World -> result remote_Descriptor * World;
  remote_Descriptor_Descriptor : remote_Descriptor -> regv1_Descriptor;
  regremote_Image :
    Reference -> list remote_Option -> World -> result regv1_Image * World;
  regremote_Index :
    Reference -> list remote_Option -> World -> result regv1_ImageIndex * World;
  regremote_Write :
    Reference -> regv1_Image -> list remote_Option -> World -> option error * World;
  regremote_WriteIndex :
    Reference -> regv1_ImageIndex -> list remote_Option -> World -> option error * World;
  regremote_List :
    Repository -> list remote_Option -> World -> result (list string) * World;
  UnauthorizedErrorCode : ErrorCode;
  transport_Error_Error : transport_Error -> string
}.

Context `{L : Library}.

(** The [Error()] method. *)
Definition Error (err : error) : string :=
  match err with
  | errorString s => s
  | regremtran_Error tranErr => transport_Error_Error tranErr
  end.

(** What the verb [%s] prints for an operand. *)
Definition verb_s (a : fmt_arg) : string :=
  match a with
  | arg_string s => s
  | arg_error (Some err) => Error err
  | arg_error None => "%!s(<nil>)"
  end.

(** [fmt.Sprintf] for formats whose only verb is [%s]. *)
Fixpoint Sprintf (format : string) (args : list fmt_arg) : string :=
  match format with
  | EmptyString => EmptyString
  | String c rest =>
      if (c =? "%")%char then
        match rest with
        | String v rest' =>
            if (v =? "s")%char then
              match args with
              | a :: args' => verb_s a ++ Sprintf rest' args'
              | [] => "%!s(MISSING)" ++ Sprintf rest' []
              end
            else String c (String v (Sprintf rest' args))
        | EmptyString => "%!(NOVERB)"
        end
      else String c (Sprintf rest args)
  end.

(** [fmt.Errorf] without [%w]: an error that is only its message. *)
Definition fmt_Errorf (format : string) (args : list fmt_arg) : error :=
  errorString (Sprintf format args).

(** ** Calls, traces and computations *)

(** The calls that leave the package, with their arguments. *)
Inductive call :=
| call_SystemCertPool
| call_ReadFile (path : string)
| call_DefaultKeychain_Resolve (res : Resource)
| call_regremote_Get (ref : Reference) (os : list remote_Option)
| call_regremote_Image (ref : Reference) (os : list remote_Option)
| call_regremote_Index (ref : Reference) (os : list remote_Option)
| call_regremote_Write (ref : Reference) (img : regv1_Image) (os : list remote_Option)
| call_regremote_WriteIndex (ref : Reference) (idx : regv1_ImageIndex) (os : list remote_Option)
| call_regremote_List (repo : Repository) (os : list remote_Option).

(** An entry of the trace: [time.Sleep], or a call. *)
Inductive event :=
| Sleep (d : Duration)
| Call (c : call).

Record State := {
  world : World;
  trace : list event
}.

Definition M (A : Type) : Type := State -> A * State.

Definition ret {A} (a : A) : M A := fun s => (a, s).

Definition bind {A B} (m : M A) (k : A -> M B) : M B :=
  fun s => let (a, s') := m s in k a s'.

Notation "x <- m ;; k" := (bind m (fun x => k))
  (at level 61, m at next level, right associativity).
Notation "m ;;; k" := (bind m (fun _ => k))
  (at level 61, right associativity).

(** A call that leaves the package: it is appended to the trace and acts
    on the world. *)
Definition invoke {A} (c : call) (f : World -> A * World) : M A :=
  fun s =>
    let (a, w) := f (world s) in
    (a, {| world := w; trace := trace s ++ [Call c] |}).

(** A call that only reads the world. *)
Definition observe {A} (f : World -> A) : World -> A * World :=
  fun w => (f w, w).

Definition time_Sleep (d : Duration) : M unit :=
  fun s => (tt, {| world := elapse d (world s); trace := trace s ++ [Sleep d] |}).

(** ** The retry loop *)

Definition Diagnostic_zero : Diagnostic := {| Code := ""; Message := "" |}.

(** [for i := 0; i < 5; i++ { ... }]: the body never reads [i], so the loop
    is a recursion on the iterations left, [5 - i]. [lastErr] is the
    variable of that name; the return after the loop formats it. *)
Fixpoint retry_loop (left : nat) (doFunc : M (option error))
    (lastErr : option error) : M (option error) :=
  match left with
  | O => ret (Some (fmt_Errorf "Retried 5 times: %s" [arg_error lastErr]))
  | S left' =>
      lastErr <- doFunc ;;
      let continue := (time_Sleep (1 * Second)%Z ;;; retry_loop left' doFunc lastErr) in
      match lastErr with
      | None => ret None
      | Some (regremtran_Error tranErr) =>
          if (0 <? List.length (Errors tranErr))%nat then
            if (Code (nth 0 (Errors tranErr) Diagnostic_zero) =? UnauthorizedErrorCode)%string then
              ret (Some (fmt_Errorf "Non-retryable error: %s" [arg_error lastErr]))
            else continue
          else continue
      | Some _ => continue
      end
  end.

Definition retry (i : Registry) (doFunc : M (option error)) : M (option error) :=
  retry_loop 5 doFunc None.

(** ** The keychain *)

(** [customRegistryKeychain.Resolve]: the [switch] tries its cases from the
    top; only the default case leaves the package. *)
Definition Resolve (k : customRegistryKeychain) (res : Resource)
    : M (result Authenticator) :=
  if (0 <? String.length (Username (kopts k)))%nat then
    ret (Ok (Basic (Username (kopts k)) (Password (kopts k))))
  else if (0 <? String.length (Token (kopts k)))%nat then
    ret (Ok (Bearer (Token (kopts k))))
  else if Anon (kopts k) then
    ret (Ok Anonymous)
  else
    invoke (call_DefaultKeychain_Resolve res) (observe (DefaultKeychain_Resolve res)).

(** ** The transport *)

(** The [range] over [CACertPaths]; [pool] is the pool being filled. *)
Fixpoint range_CACertPaths (pool : CertPool) (paths : list string)
    : M (result CertPool) :=
  match paths with
  | [] => ret (Ok pool)
  | path :: paths' =>
      r <- invoke (call_ReadFile path) (observe (ioutil_ReadFile path)) ;;
      match r with
      | Err err =>
          ret (Err (fmt_Errorf "Reading CA certificates from '%s': %s"
                      [arg_string path; arg_error (Some err)]))
      | Ok certs =>
          let (pool', ok) := AppendCertsFromPEM pool certs in
          if negb ok then
            ret (Err (fmt_Errorf "Adding CA certificates from '%s': failed"
                        [arg_string path]))
          else range_CACertPaths pool' paths'
      end
  end.

Definition newHTTPTransport (i : Registry) : M (result http_Transport) :=
  r <- invoke call_SystemCertPool (observe x509_SystemCertPool) ;;
  let pool := match r with
              | Ok pool => pool
              | Err _ => x509_NewCertPool
              end in
  r <- (if (0 <? List.length (CACertPaths (opts i)))%nat
        then range_CACertPaths pool (CACertPaths (opts i))
        else ret (Ok pool)) ;;
  match r with
  | Err err => ret (Err err)
  | Ok pool =>
      ret (Ok {|
        Proxy := ProxyFromEnvironment;
        DialContext := {|
          Timeout := (30 * Second)%Z;
          KeepAlive := (30 * Second)%Z;
          DualStack := true
        |};
        MaxIdleConns := 100;
        IdleConnTimeout := (90 * Second)%Z;
        TLSHandshakeTimeout := (10 * Second)%Z;
        ResponseHeaderTimeout := (10 * Second)%Z;
        ExpectContinueTimeout := (1 * Second)%Z;
        TLSClientConfig := {|
          RootCAs := pool;
          InsecureSkipVerify := Bool.eqb (VerifyCerts (opts i)) false
        |}
      |})
  end.

(** ** The facade *)

Definition imageOpts (i : Registry) : M (result (list remote_Option)) :=
  r <- newHTTPTransport i ;;
  match r with
  | Err err => ret (Err err)
  | Ok httpTran =>
      ret (Ok [WithTransport httpTran; WithAuthFromKeychain (registryKeychain i)])
  end.

Definition Generic (i : Registry) (ref : Reference) : M (result regv1_Descriptor) :=
  r <- imageOpts i ;;
  match r with
  | Err err => ret (Err err)
  | Ok os =>
      r <- invoke (call_regremote_Get ref os) (regremote_Get ref os) ;;
      match r with
      | Err err => ret (Err err)
      | Ok desc => ret (Ok (remote_Descriptor_Descriptor desc))
      end
  end.

Definition Image (i : Registry) (ref : Reference) : M (result regv1_Image) :=
  r <- imageOpts i ;;
  match r with
  | Err err => ret (Err err)
  | Ok os => invoke (call_regremote_Image ref os) (regremote_Image ref os)
  end.

Definition WriteImage (i : Registry) (ref : Reference) (img : regv1_Image)
    : M (option error) :=
  r <- newHTTPTransport i ;;
  match r with
  | Err err => ret (Some err)
  | Ok httpTran =>
      r <- Resolve (registryKeychain i) (repo_Registry (ref_Context ref)) ;;
      match r with
      | Err err =>
          ret (Some (fmt_Errorf "Getting auth details: %s" [arg_error (Some err)]))
      | Ok auth =>
          let os := [WithAuth auth; WithTransport httpTran] in
          err <- retry i (invoke (call_regremote_Write ref img os)
                                 (regremote_Write ref img os)) ;;
          match err with
          | Some _ => ret (Some (fmt_Errorf "Writing image: %s" [arg_error err]))
          | None => ret None
          end
      end
  end.

Definition Index (i : Registry) (ref : Reference) : M (result regv1_ImageIndex) :=
  r <- imageOpts i ;;
  match r with
  | Err err => ret (Err err)
  | Ok os => invoke (call_regremote_Index ref os) (regremote_Index ref os)
  end.

Definition WriteIndex (i : Registry) (ref : Reference) (idx : regv1_ImageIndex)
    : M (option error) :=
  r <- newHTTPTransport i ;;
  match r with
  | Err err => ret (Some err)
  | Ok httpTran =>
      r <- Resolve (registryKeychain i) (repo_Registry (ref_Context ref)) ;;
      match r with
      | Err err =>
          ret (Some (fmt_Errorf "Getting auth details: %s" [arg_error (Some err)]))
      | Ok auth =>
          let os := [WithAuth auth; WithTransport httpTran] in
          err <- retry i (invoke (call_regremote_WriteIndex ref idx os)
                                 (regremote_WriteIndex ref idx os)) ;;
          match err with
          | Some _ => ret (Some (fmt_Errorf "Writing image index: %s" [arg_error err]))
          | None => ret None
          end
      end
  end.

Definition ListTags (i : Registry) (repo : Repository) : M (result (list string)) :=
  r <- newHTTPTransport i ;;
  match r with
  | Err err => ret (Err err)
  | Ok httpTran =>
      r <- Resolve (registryKeychain i) (repo_Registry repo) ;;
      match r with
      | Err err =>
          ret (Err (fmt_Errorf "Getting auth details: %s" [arg_error (Some err)]))
      | Ok auth =>
          let os := [WithAuth auth; WithTransport httpTran] in
          invoke (call_regremote_List repo os) (regremote_List repo os)
      end
  end.

(** ** Vocabulary of the properties *)

(** The pauses and the calls of a trace, in order. *)
Fixpoint sleeps (tr : list event) : list Duration :=
  match tr with
  | [] => []
  | Sleep d :: tr' => d :: sleeps tr'
  | Call _ :: tr' => sleeps tr'
  end.

Fixpoint calls (tr : list event) : list call :=
  match tr with
  | [] => []
  | Sleep _ :: tr' => calls tr'
  | Call c :: tr' => c :: calls tr'
  end.

(** The calls that go to the registry, over the network. *)
Definition is_network (c : call) : bool :=
  match c with
  | call_SystemCertPool | call_ReadFile _ | call_DefaultKeychain_Resolve _ => false
  | _ => true
  end.

Definition network_calls (tr : list event) : list call :=
  filter is_network (calls tr).

(** A computation is local when it leaves the world as it is, makes no
    network call and does not sleep. *)
Definition local {A} (m : M A) : Prop :=
  forall s,
    world (snd (m s)) = world s /\
    network_calls (trace (snd (m s))) = network_calls (trace s) /\
    sleeps (trace (snd (m s))) = sleeps (trace s).

(** A computation is a single attempt when it does not sleep and makes at
    most one network call. *)
Definition single_attempt {A} (m : M A) : Prop :=
  forall s,
    sleeps (trace (snd (m s))) = sleeps (trace s) /\
    (List.length (network_calls (trace (snd (m s))))
     <= List.length (network_calls (trace s)) + 1)%nat.


(** The trace of reading the files [paths], in order. *)
Definition reads (paths : list string) : list event :=
  map (fun path => Call (call_ReadFile path)) paths.

(** A failure is unauthorized when it is a transport error whose first
    sub-error carries the unauthorized code. *)
Definition unauthorized (err : error) : bool :=
  match err with
  | regremtran_Error {| Errors := d :: _ |} => (Code d =? UnauthorizedErrorCode)%string
  | _ => false
  end.

(** A transport error that is not unauthorized: it carries no sub-error,
    or its first sub-error carries another code. *)
Definition other_transport_error (err : error) : Prop :=
  exists tranErr,
    err = regremtran_Error tranErr /\
    (Errors tranErr = [] \/
     exists d ds, Errors tranErr = d :: ds /\ Code d <> UnauthorizedErrorCode).

(** An operation of the retry policy: one call [c] that leaves the
    package and acts on the world as [body]. *)
Definition operation (c : call) (body : World -> option error * World)
    : M (option error) :=
  invoke c body.

(** [fails body w errs w']: invoked at [w], and again one second after
    each failure, [body] fails with [errs], one after the other; [w'] is
    the world one second after the last of them. *)
Inductive fails (body : World -> option error * World)
    : World -> list error -> World -> Prop :=
| fails_nil w : fails body w [] w
| fails_cons w err w1 errs w2 :
    body w = (Some err, w1) ->
    fails body (elapse (1 * Second)%Z w1) errs w2 ->
    fails body w (err :: errs) w2.

(** The trace of [n] failed attempts at [c], each followed by its pause. *)
Fixpoint failed_attempts (c : call) (n : nat) : list event :=
  match n with
  | O => []
  | S n' => Call c :: Sleep (1 * Second)%Z :: failed_attempts c n'
  end.

(** The pool that transport building starts from: the system trust store,
    or an empty pool when the store is unavailable. *)
Definition start_pool (w : World) : CertPool :=
  match x509_SystemCertPool w with
  | Ok pool => pool
  | Err _ => x509_NewCertPool
  end.

(** [appended w pool paths pool']: every file of [paths] can be read in
    [w] and holds PEM certificates, and appending their bytes to [pool],
    in order, gives [pool']. *)
Inductive appended (w : World) : CertPool -> list string -> CertPool -> Prop :=
| appended_nil pool : appended w pool [] pool
| appended_cons pool path certs pool1 paths pool2 :
    ioutil_ReadFile path w = Ok certs ->
    AppendCertsFromPEM pool certs = (pool1, true) ->
    appended w pool1 paths pool2 ->
    appended w pool (path :: paths) pool2.

End Model.

(** ** A small world to run the model in *)

Module Example.

(** The world is the script of the answers the registry will give to the
    next write calls; the values the package passes along carry nothing. *)
Definition types : Types := {|
  World := list (option error);
  CertPool := list (list Byte.byte);
  regv1_Image := unit;
  regv1_ImageIndex := unit;
  regv1_Descriptor := unit;
  remote_Descriptor := unit
|}.

#[local] Existing Instance types.

Definition next_answer (w : list (option error))
    : option error * list (option error) :=
  match w with
  | r :: w' => (r, w')
  | [] => (None, [])
  end.

(** Two files exist: one with a certificate, one without. *)
Definition read_file (path : string) (w : list (option error))
    : result (list Byte.byte) :=
  if (path =? "ca.pem")%string then Ok [Byte.x2d; Byte.x2d]
  else if (path =? "notes.txt")%string then Ok []
  else Err (errorString ("open " ++ path ++ ": no such file or directory")).

Definition append_certs (pool : list (list Byte.byte)) (pem : list Byte.byte)
    : list (list Byte.byte) * bool :=
  match pem with
  | [] => (pool, false)
  | _ => (pool ++ [pem], true)
  end.

(** One registry has a stored login. *)
Definition default_keychain (res : Resource) (w : list (option error))
    : result Authenticator :=
  if (RegistryStr res =? "index.docker.io")%string then Ok (FromConfig "stored login")
  else Err (errorString "no credentials").

Definition error_text (tranErr : transport_Error) : string :=
  match Errors tranErr with
  | d :: _ => Code d ++ ": " ++ Message d
  | [] => "unexpected status code"
  end.

(** The libraries, with registry reads that always answer. *)
Definition base : @Library types := {|
  elapse := fun _ w => w;
  x509_SystemCertPool := fun _ => Err (errorString "system root pool is not available");
  x509_NewCertPool := [];
  AppendCertsFromPEM := append_certs;
  ioutil_ReadFile := read_file;
  DefaultKeychain_Resolve := default_keychain;
  regremote_Get := fun _ _ w => (Ok tt, w);
  remote_Descriptor_Descriptor := fun d => d;
  regremote_Image := fun _ _ w => (Ok tt, w);
  regremote_Index := fun _ _ w => (Ok tt, w);
  regremote_Write := fun _ _ _ w => next_answer w;
  regremote_WriteIndex := fun _ _ _ w => next_answer w;
  regremote_List := fun _ _ w => (Ok ["latest"], w);
  UnauthorizedErrorCode := "UNAUTHORIZED";
  transport_Error_Error := error_text
|}.

(** A registry read resolves the keychain among its options before it
    goes to the network, and reports a failure to resolve as it is. *)
Fixpoint keychain_failure (os : list (@remote_Option types)) (res : Resource)
    (w : list (option error)) : option error :=
  match os with
  | [] => None
  | WithAuthFromKeychain keys :: os' =>
      match fst (@Resolve types base keys res {| world := w; trace := [] |}) with
      | Err err => Some err
      | Ok _ => keychain_failure os' res w
      end
  | _ :: os' => keychain_failure os' res w
  end.

Definition read {A} (a : A) (ref : Reference) (os : list (@remote_Option types))
    (w : list (option error)) : result A * list (option error) :=
  match keychain_failure os (repo_Registry (ref_Context ref)) w with
  | Some err => (Err err, w)
  | None => (Ok a, w)
  end.

Definition library : @Library types := {|
  elapse := fun _ w => w;
  x509_SystemCertPool := fun _ => Err (errorString "system root pool is not available");
  x509_NewCertPool := [];
  AppendCertsFromPEM := append_certs;
  ioutil_ReadFile := read_file;
  DefaultKeychain_Resolve := default_keychain;
  regremote_Get := read tt;
  remote_Descriptor_Descriptor := fun d => d;
  regremote_Image := read tt;
  regremote_Index := read tt;
  regremote_Write := fun _ _ _ w => next_answer w;
  regremote_WriteIndex := fun _ _ _ w => next_answer w;
  regremote_List := fun _ _ w => (Ok ["latest"], w);
  UnauthorizedErrorCode := "UNAUTHORIZED";
  transport_Error_Error := error_text
|}.

(** A configuration without credentials, and one with a CA file. *)
Definition plain : RegistryOpts := {|
  CACertPaths := [];
  VerifyCerts := true;
  Username := "";
  Password := "";
  Token := "";
  Anon := false
|}.

Definition with_ca : RegistryOpts := {|
  CACertPaths := ["ca.pem"];
  VerifyCerts := false;
  Username := "";
  Password := "";
  Token := "";
  Anon := true
|}.

Definition missing_ca : RegistryOpts := {|
  CACertPaths := ["ca.pem"; "missing.pem"; "notes.txt"];
  VerifyCerts := true;
  Username := "";
  Password := "";
  Token := "";
  Anon := true
|}.

Definition stray_password : RegistryOpts := {|
  CACertPaths := ["ca.pem"];
  VerifyCerts := false;
  Username := "";
  Password := "secret";
  Token := "";
  Anon := false
|}.

Definition all_set : RegistryOpts := {|
  CACertPaths := [];
  VerifyCerts := true;
  Username := "u";
  Password := "p";
  Token := "t";
  Anon := true
|}.

Definition private_host : regname_Registry := {| RegistryStr := "registry.example" |}.

Definition private_ref : Reference := {|
  ref_Context := {| repo_Registry := private_host; RepositoryStr := "app" |};
  Identifier := "v1"
|}.

Definition reset : error := errorString "connection reset by peer".

Definition denied : error :=
  regremtran_Error {|
    Errors := [{| Code := "UNAUTHORIZED"; Message := "authentication required" |}];
    StatusCode := 401
  |}.

Definition busy : error :=
  regremtran_Error {|
    Errors := [{| Code := "TOOMANYREQUESTS"; Message := "slow down" |}];
    StatusCode := 429
  |}.

Definition bare : error :=
  regremtran_Error {| Errors := []; StatusCode := 502 |}.

(** The label of a write, for operations run under [retry] directly. *)
Definition push : @call types := call_regremote_Write private_ref tt [].

(** The state a call starts in, given the registry's script. *)
Definition start (script : list (option error)) : @State types :=
  {| world := script; trace := [] |}.

End Example.

Section Properties.

Context {T : Types} {L : Library}.

(** ** Formatting lemmas *)

Lemma append_empty_r (s : string) : (s ++ "")%string = s.
Proof.
  induction s as [|c s IH]; simpl; [reflexivity | now rewrite IH].
Qed.

Lemma Errorf_retried (err : error) :
  fmt_Errorf "Retried 5 times: %s" [arg_error (Some err)]
  = errorString ("Retried 5 times: " ++ Error err).
Proof.
  unfold fmt_Errorf; cbn. now rewrite append_empty_r.
Qed.

Lemma Errorf_non_retryable (err : error) :
  fmt_Errorf "Non-retryable error: %s" [arg_error (Some err)]
  = errorString ("Non-retryable error: " ++ Error err).
Proof.
  unfold fmt_Errorf; cbn. now rewrite append_empty_r.
Qed.

(** ** The loop's test against the vocabulary *)

(** The nested tests of the loop body pick out the unauthorized failures. *)
Lemma unauthorized_test (tranErr : transport_Error) :
  unauthorized (regremtran_Error tranErr)
  = ((0 <? List.length (Errors tranErr))%nat
     && (Code (nth 0 (Errors tranErr) Diagnostic_zero) =? UnauthorizedErrorCode)%string).
Proof.
  destruct tranErr as [[|d ds] sc]; reflexivity.
Qed.

(** ** One iteration of the loop *)

Lemma retry_step_success c body n lastErr w tr w1 :
  body w = (None, w1) ->
  retry_loop (S n) (operation c body) lastErr {| world := w; trace := tr |}
  = (None, {| world := w1; trace := tr ++ [Call c] |}).
Proof.
  intros Hb. simpl. unfold bind, operation, invoke. cbn [world trace].
  now rewrite Hb.
Qed.

Lemma retry_step_unauthorized c body n lastErr w tr err w1 :
  body w = (Some err, w1) ->
  unauthorized err = true ->
  retry_loop (S n) (operation c body) lastErr {| world := w; trace := tr |}
  = (Some (errorString ("Non-retryable error: " ++ Error err)),
     {| world := w1; trace := tr ++ [Call c] |}).
Proof.
  intros Hb Hu. simpl. unfold bind at 1. unfold operation, invoke.
  cbn [world trace]. rewrite Hb.
  destruct err as [msg|tranErr]; [discriminate|].
  rewrite unauthorized_test in Hu. apply andb_true_iff in Hu as [H1 H2].
  rewrite H1, H2. unfold ret. now rewrite Errorf_non_retryable.
Qed.

Lemma retry_step_retryable c body n lastErr w tr err w1 :
  body w = (Some err, w1) ->
  unauthorized err = false ->
  retry_loop (S n) (operation c body) lastErr {| world := w; trace := tr |}
  = retry_loop n (operation c body) (Some err)
      {| world := elapse (1 * Second)%Z w1;
         trace := tr ++ [Call c; Sleep (1 * Second)%Z] |}.
Proof.
  intros Hb Hu. simpl. unfold bind at 1. unfold operation at 1, invoke.
  cbn [world trace]. rewrite Hb.
  assert (Hk : forall k : M (option error),
             bind (time_Sleep (1 * Second)%Z) (fun _ => k)
               {| world := w1; trace := tr ++ [Call c] |}
             = k {| world := elapse (1 * Second)%Z w1;
                    trace := tr ++ [Call c; Sleep (1 * Second)%Z] |}).
  { intros k. unfold bind, time_Sleep. cbn [world trace].
    now rewrite <- app_assoc. }
  destruct err as [msg|tranErr]; [apply Hk|].
  rewrite unauthorized_test in Hu.
  destruct (0 <? List.length (Errors tranErr))%nat; [|apply Hk].
  simpl in Hu. rewrite Hu. apply Hk.
Qed.

(** ** A run of failures *)

Lemma failed_attempts_app c n m :
  failed_attempts c (n + m) = failed_attempts c n ++ failed_attempts c m.
Proof.
  induction n as [|n IH]; simpl; [reflexivity | now rewrite IH].
Qed.

Lemma last_cons_default {A} (x : A) (l : list A) (d d' : A) :
  last (x :: l) d = last (x :: l) d'.
Proof.
  revert x; induction l as [|y l IH]; intros x; [reflexivity|].
  change (last (y :: l) d = last (y :: l) d'). apply IH.
Qed.

(** After [errs], none of them unauthorized, the loop stands where it
    would with that many iterations fewer. *)
Lemma retry_loop_fails c body w errs w' :
  fails body w errs w' ->
  Forall (fun err => unauthorized err = false) errs ->
  forall n lastErr tr,
    retry_loop (List.length errs + n) (operation c body) lastErr
      {| world := w; trace := tr |}
    = retry_loop n (operation c body) (last (map Some errs) lastErr)
        {| world := w'; trace := tr ++ failed_attempts c (List.length errs) |}.
Proof.
  induction 1 as [w|w err w1 errs w2 Hb Hf IH]; intros Hall n lastErr tr.
  - simpl. now rewrite app_nil_r.
  - inversion Hall as [|? ? Hu Hall']; subst.
    cbn [List.length Nat.add].
    rewrite (retry_step_retryable c body _ lastErr w tr err w1 Hb Hu). rewrite (IH Hall' n (Some err) _).
    f_equal.
    + destruct errs as [|err' errs]; [reflexivity|].
      change (last (map Some (err :: err' :: errs)) lastErr)
        with (last (map Some (err' :: errs)) lastErr).
      apply last_cons_default.
    + cbn [failed_attempts]. now rewrite <- app_assoc.
Qed.

Lemma sleeps_app tr1 tr2 : sleeps (tr1 ++ tr2) = sleeps tr1 ++ sleeps tr2.
Proof.
  induction tr1 as [|[d|c] tr1 IH]; simpl; [reflexivity | now rewrite IH | exact IH].
Qed.

Lemma calls_app tr1 tr2 : calls (tr1 ++ tr2) = calls tr1 ++ calls tr2.
Proof.
  induction tr1 as [|[d|c] tr1 IH]; simpl; [reflexivity | exact IH | now rewrite IH].
Qed.

Lemma network_calls_app tr1 tr2 :
  network_calls (tr1 ++ tr2) = network_calls tr1 ++ network_calls tr2.
Proof.
  unfold network_calls. now rewrite calls_app, filter_app.
Qed.

(** The loop invokes the operation at most once per iteration. *)
Lemma retry_loop_calls c body n :
  forall lastErr s,
    (List.length (calls (trace (snd (retry_loop n (operation c body) lastErr s))))
     <= List.length (calls (trace s)) + n)%nat.
Proof.
  induction n as [|n IH]; intros lastErr [w tr].
  - simpl. lia.
  - destruct (body w) as [[err|] w1] eqn:Hb.
    + destruct (unauthorized err) eqn:Hu.
      * rewrite (retry_step_unauthorized c body n lastErr w tr err w1 Hb Hu).
        cbn [snd trace]. rewrite calls_app, length_app. simpl. lia.
      * rewrite (retry_step_retryable c body n lastErr w tr err w1 Hb Hu).
        specialize (IH (Some err)
          {| world := elapse (1 * Second)%Z w1;
             trace := tr ++ [Call c; Sleep (1 * Second)%Z] |}).
        cbn [trace] in *. rewrite calls_app, length_app in IH.
        cbn [calls List.length] in IH. lia.
    + rewrite (retry_step_success c body n lastErr w tr w1 Hb).
      cbn [snd trace]. rewrite calls_app, length_app. simpl. lia.
Qed.

(** Five failures in a row, none unauthorized, use up the loop. *)
Lemma retry_five_failures (i : Registry) c body e1 e2 e3 e4 e5 w w' tr :
  fails body w [e1; e2; e3; e4; e5] w' ->
  Forall (fun err => unauthorized err = false) [e1; e2; e3; e4; e5] ->
  retry i (operation c body) {| world := w; trace := tr |}
  = (Some (errorString ("Retried 5 times: " ++ Error e5)),
     {| world := w'; trace := tr ++ failed_attempts c 5 |}).
Proof.
  intros Hf Hall. unfold retry.
  change 5%nat with (List.length [e1; e2; e3; e4; e5] + 0)%nat at 1.
  rewrite (retry_loop_fails c body w _ w' Hf Hall 0 None tr).
  cbn [retry_loop map last List.length]. unfold ret.
  now rewrite Errorf_retried.
Qed.

(** Fewer than five failures, none unauthorized, then a success. *)
Lemma retry_failures_then_success (i : Registry) c body errs w w1 w2 tr :
  fails body w errs w1 ->
  Forall (fun err => unauthorized err = false) errs ->
  (List.length errs < 5)%nat ->
  body w1 = (None, w2) ->
  retry i (operation c body) {| world := w; trace := tr |}
  = (None,
     {| world := w2;
        trace := tr ++ failed_attempts c (List.length errs) ++ [Call c] |}).
Proof.
  intros Hf Hall Hlen Hb. unfold retry.
  replace 5%nat with (List.length errs + S (4 - List.length errs))%nat by lia.
  rewrite (retry_loop_fails c body w errs w1 Hf Hall).
  rewrite (retry_step_success c body _ _ _ _ w2 Hb).
  now rewrite <- app_assoc.
Qed.

Lemma other_transport_error_retryable (err : error) :
  other_transport_error err -> unauthorized err = false.
Proof.
  intros [tranErr [-> [Hnil | [d [ds [Hd Hcode]]]]]];
    destruct tranErr as [errors sc]; simpl in *; subst; [reflexivity|].
  now apply String.eqb_neq.
Qed.

(** ** The retry policy *)

(** C2: whatever the operation, if an attempt (the first, or a later one
    reached after failures that were retried) fails with a transport error
    whose first sub-error carries the unauthorized code, [retry] returns
    the error "Non-retryable error: <that failure>" and its final state is
    the one that attempt left: the trace ends with the failing call, so no
    attempt and no sleep follows it. *)
Theorem retry_unauthorized_stops (i : Registry) c body errs err w w1 w2 tr :
  fails body w errs w1 ->
  Forall (fun e => unauthorized e = false) errs ->
  (List.length errs < 5)%nat ->
  body w1 = (Some err, w2) ->
  unauthorized err = true ->
  retry i (operation c body) {| world := w; trace := tr |}
  = (Some (errorString ("Non-retryable error: " ++ Error err)),
     {| world := w2;
        trace := tr ++ failed_attempts c (List.length errs) ++ [Call c] |}).
Proof.
  intros Hf Hall Hlen Hb Hu. unfold retry.
  replace 5%nat with (List.length errs + S (4 - List.length errs))%nat by lia.
  rewrite (retry_loop_fails c body w errs w1 Hf Hall).
  rewrite (retry_step_unauthorized c body _ _ _ _ err w2 Hb Hu).
  now rewrite <- app_assoc.
Qed.

(** C3: [retry] invokes the operation at most 5 times, whatever it does;
    and when the operation fails five times in a row, no failure being
    unauthorized, [retry] returns the error
    "Retried 5 times: <message of the fifth failure>". *)
Theorem retry_exhausted (i : Registry) c body w tr :
  (List.length (calls (trace (snd
      (retry i (operation c body) {| world := w; trace := tr |}))))
   <= List.length (calls tr) + 5)%nat /\
  forall e1 e2 e3 e4 e5 w',
    fails body w [e1; e2; e3; e4; e5] w' ->
    Forall (fun err => unauthorized err = false) [e1; e2; e3; e4; e5] ->
    fst (retry i (operation c body) {| world := w; trace := tr |})
    = Some (errorString ("Retried 5 times: " ++ Error e5)) /\
    calls (trace (snd (retry i (operation c body) {| world := w; trace := tr |})))
    = calls tr ++ [c; c; c; c; c].
Proof.
  split.
  - apply (retry_loop_calls c body 5 None {| world := w; trace := tr |}).
  - intros e1 e2 e3 e4 e5 w' Hf Hall.
    rewrite (retry_five_failures i c body e1 e2 e3 e4 e5 w w' tr Hf Hall).
    split; [reflexivity|]. cbn [snd trace]. now rewrite calls_app.
Qed.

(** C5: when the operation fails four times in a row (no failure being
    unauthorized) and then succeeds, [retry] returns success (nil) after
    five calls, with one sleep of one second after each of the four
    failures, that is between consecutive attempts, and none after the
    success: exactly four sleeps, each of one second. *)
Theorem retry_succeeds_on_fifth (i : Registry) c body e1 e2 e3 e4 w w1 w2 tr :
  fails body w [e1; e2; e3; e4] w1 ->
  Forall (fun err => unauthorized err = false) [e1; e2; e3; e4] ->
  body w1 = (None, w2) ->
  retry i (operation c body) {| world := w; trace := tr |}
  = (None,
     {| world := w2;
        trace := tr ++ [Call c; Sleep Second; Call c; Sleep Second;
                        Call c; Sleep Second; Call c; Sleep Second; Call c] |})
  /\ sleeps (trace (snd (retry i (operation c body) {| world := w; trace := tr |})))
     = sleeps tr ++ [Second; Second; Second; Second]
  /\ Second = 1000000000%Z.
Proof.
  intros Hf Hall Hb.
  rewrite (retry_failures_then_success i c body _ w w1 w2 tr Hf Hall
             ltac:(simpl; lia) Hb).
  repeat split. cbn [snd trace]. now rewrite sleeps_app.
Qed.

(** C9: when the operation fails five times in a row (no failure being
    unauthorized), [retry] sleeps one second after every failure, the
    fifth included: the trace is five times a call followed by a sleep,
    it ends with a sleep, and exactly five sleeps occur. *)
Theorem retry_exhausted_sleeps (i : Registry) c body e1 e2 e3 e4 e5 w w' tr :
  fails body w [e1; e2; e3; e4; e5] w' ->
  Forall (fun err => unauthorized err = false) [e1; e2; e3; e4; e5] ->
  trace (snd (retry i (operation c body) {| world := w; trace := tr |}))
  = tr ++ [Call c; Sleep Second; Call c; Sleep Second; Call c; Sleep Second;
           Call c; Sleep Second; Call c; Sleep Second]
  /\ sleeps (trace (snd (retry i (operation c body) {| world := w; trace := tr |})))
     = sleeps tr ++ [Second; Second; Second; Second; Second].
Proof.
  intros Hf Hall.
  rewrite (retry_five_failures i c body e1 e2 e3 e4 e5 w w' tr Hf Hall).
  cbn [snd trace]. split; [reflexivity|]. now rewrite sleeps_app.
Qed.

(** C10: a failure that is a transport error with an empty list of
    sub-errors, or whose first sub-error carries a code other than the
    unauthorized one, does not stop the loop: after fewer than five such
    failures a success is returned as success, each failure having been
    followed by a sleep and a new attempt; five such failures use up the
    budget and give "Retried 5 times: ...", as for any other error. *)
Theorem retry_other_transport_errors (i : Registry) c body w tr :
  (forall errs w1 w2,
     fails body w errs w1 ->
     Forall other_transport_error errs ->
     (List.length errs < 5)%nat ->
     body w1 = (None, w2) ->
     retry i (operation c body) {| world := w; trace := tr |}
     = (None,
        {| world := w2;
           trace := tr ++ failed_attempts c (List.length errs) ++ [Call c] |}))
  /\
  (forall e1 e2 e3 e4 e5 w1,
     fails body w [e1; e2; e3; e4; e5] w1 ->
     Forall other_transport_error [e1; e2; e3; e4; e5] ->
     retry i (operation c body) {| world := w; trace := tr |}
     = (Some (errorString ("Retried 5 times: " ++ Error e5)),
        {| world := w1; trace := tr ++ failed_attempts c 5 |})).
Proof.
  split.
  - intros errs w1 w2 Hf Hall Hlen Hb.
    apply (retry_failures_then_success i c body errs w w1 w2 tr Hf); auto.
    eapply Forall_impl; [|exact Hall]. apply other_transport_error_retryable.
  - intros e1 e2 e3 e4 e5 w1 Hf Hall.
    apply (retry_five_failures i c body e1 e2 e3 e4 e5 w w1 tr Hf).
    eapply Forall_impl; [|exact Hall]. apply other_transport_error_retryable.
Qed.

(** ** Local computations *)

Lemma invoke_observe {A} c (f : World -> A) s :
  invoke c (observe f) s
  = (f (world s), {| world := world s; trace := trace s ++ [Call c] |}).
Proof. reflexivity. Qed.

Lemma local_ret {A} (a : A) : local (ret a).
Proof. intros s. repeat split. Qed.

Lemma local_bind {A B} (m : M A) (k : A -> M B) :
  local m -> (forall a, local (k a)) -> local (bind m k).
Proof.
  intros Hm Hk s. unfold bind.
  destruct (m s) as [a s1] eqn:E.
  specialize (Hm s). rewrite E in Hm. cbn [snd] in Hm.
  destruct Hm as (Hw & Hn & Hs), (Hk a s1) as (Hw' & Hn' & Hs').
  repeat split; congruence.
Qed.

Lemma local_observe {A} c (f : World -> A) :
  is_network c = false -> local (invoke c (observe f)).
Proof.
  intros Hc s. rewrite invoke_observe. cbn [snd world trace].
  rewrite network_calls_app, sleeps_app. unfold network_calls. simpl.
  rewrite Hc. simpl. now rewrite !app_nil_r.
Qed.

Lemma local_range_CACertPaths paths :
  forall pool, local (range_CACertPaths pool paths).
Proof.
  induction paths as [|path paths IH]; intros pool; simpl.
  - apply local_ret.
  - apply local_bind; [now apply local_observe|].
    intros [certs|err]; [|apply local_ret].
    destruct (AppendCertsFromPEM pool certs) as [pool' [|]]; simpl;
      [apply IH | apply local_ret].
Qed.

Lemma local_newHTTPTransport (i : Registry) : local (newHTTPTransport i).
Proof.
  unfold newHTTPTransport.
  apply local_bind; [now apply local_observe|]. intros r.
  apply local_bind.
  - destruct (0 <? _)%nat; [apply local_range_CACertPaths | apply local_ret].
  - intros [pool|err]; apply local_ret.
Qed.

Lemma local_Resolve k res : local (Resolve k res).
Proof.
  unfold Resolve.
  destruct (0 <? _)%nat; [apply local_ret|].
  destruct (0 <? _)%nat; [apply local_ret|].
  destruct (Anon _); [apply local_ret|].
  now apply local_observe.
Qed.

Lemma local_run {A} (m : M A) s a s' :
  local m -> m s = (a, s') ->
  world s' = world s /\
  network_calls (trace s') = network_calls (trace s) /\
  sleeps (trace s') = sleeps (trace s).
Proof.
  intros Hm E. specialize (Hm s). now rewrite E in Hm.
Qed.

(** ** Building the trust pool *)

Lemma Errorf_reading (path : string) (err : error) :
  fmt_Errorf "Reading CA certificates from '%s': %s"
    [arg_string path; arg_error (Some err)]
  = errorString ("Reading CA certificates from '" ++ path ++ "': " ++ Error err).
Proof.
  unfold fmt_Errorf; cbn. now rewrite append_empty_r.
Qed.

Lemma Errorf_adding (path : string) :
  fmt_Errorf "Adding CA certificates from '%s': failed" [arg_string path]
  = errorString ("Adding CA certificates from '" ++ path ++ "': failed").
Proof. reflexivity. Qed.

(** Past files that read and parse, the range goes on with the pool they
    leave. *)
Lemma range_appended w pool good pool1 :
  appended w pool good pool1 ->
  forall rest tr,
    range_CACertPaths pool (good ++ rest) {| world := w; trace := tr |}
    = range_CACertPaths pool1 rest {| world := w; trace := tr ++ reads good |}.
Proof.
  induction 1 as [pool|pool path certs pool1 paths pool2 Hr Ha _ IH];
    intros rest tr.
  - simpl. now rewrite app_nil_r.
  - cbn [app range_CACertPaths]. unfold bind at 1. rewrite invoke_observe.
    cbn [world trace]. rewrite Hr, Ha. cbn [negb].
    rewrite IH. cbn [reads map]. now rewrite <- app_assoc.
Qed.

(** A range that ends well has appended every file. *)
Lemma range_Ok paths :
  forall pool w tr pool' s',
    range_CACertPaths pool paths {| world := w; trace := tr |} = (Ok pool', s') ->
    appended w pool paths pool'.
Proof.
  induction paths as [|path paths IH]; intros pool w tr pool' s' E.
  - simpl in E. unfold ret in E. injection E as <- _. constructor.
  - cbn [range_CACertPaths] in E. unfold bind at 1 in E.
    rewrite invoke_observe in E. cbn [world trace] in E.
    destruct (ioutil_ReadFile path w) as [certs|err] eqn:Hr; [|discriminate].
    destruct (AppendCertsFromPEM pool certs) as [pool1 [|]] eqn:Ha;
      cbn [negb] in E; [|discriminate].
    econstructor; eauto.
Qed.

(** [newHTTPTransport] is the range over the configured paths, started
    from [start_pool], then the transport literal. *)
Lemma newHTTPTransport_unfold (i : Registry) w tr :
  newHTTPTransport i {| world := w; trace := tr |}
  = bind (range_CACertPaths (start_pool w) (CACertPaths (opts i))) (fun r =>
     match r with
     | Err err => ret (Err err)
     | Ok pool =>
         ret (Ok {|
           Proxy := ProxyFromEnvironment;
           DialContext := {|
             Timeout := (30 * Second)%Z;
             KeepAlive := (30 * Second)%Z;
             DualStack := true
           |};
           MaxIdleConns := 100;
           IdleConnTimeout := (90 * Second)%Z;
           TLSHandshakeTimeout := (10 * Second)%Z;
           ResponseHeaderTimeout := (10 * Second)%Z;
           ExpectContinueTimeout := (1 * Second)%Z;
           TLSClientConfig := {|
             RootCAs := pool;
             InsecureSkipVerify := Bool.eqb (VerifyCerts (opts i)) false
           |}
         |})
     end) {| world := w; trace := tr ++ [Call call_SystemCertPool] |}.
Proof.
  unfold newHTTPTransport. unfold bind at 1. rewrite invoke_observe.
  cbn [world trace]. fold (start_pool w).
  destruct (CACertPaths (opts i)) as [|path paths]; reflexivity.
Qed.

Lemma newHTTPTransport_Ok (i : Registry) w tr pool s' :
  range_CACertPaths (start_pool w) (CACertPaths (opts i))
    {| world := w; trace := tr ++ [Call call_SystemCertPool] |} = (Ok pool, s') ->
  exists t,
    newHTTPTransport i {| world := w; trace := tr |} = (Ok t, s') /\
    RootCAs (TLSClientConfig t) = pool.
Proof.
  intros E. rewrite newHTTPTransport_unfold. unfold bind. rewrite E.
  eexists. split; reflexivity.
Qed.

Lemma newHTTPTransport_Err (i : Registry) w tr err s' :
  range_CACertPaths (start_pool w) (CACertPaths (opts i))
    {| world := w; trace := tr ++ [Call call_SystemCertPool] |} = (Err err, s') ->
  newHTTPTransport i {| world := w; trace := tr |} = (Err err, s').
Proof.
  intros E. rewrite newHTTPTransport_unfold. unfold bind. now rewrite E.
Qed.

Lemma newHTTPTransport_Ok_inv (i : Registry) w tr t s' :
  newHTTPTransport i {| world := w; trace := tr |} = (Ok t, s') ->
  range_CACertPaths (start_pool w) (CACertPaths (opts i))
    {| world := w; trace := tr ++ [Call call_SystemCertPool] |}
  = (Ok (RootCAs (TLSClientConfig t)), s') /\
  InsecureSkipVerify (TLSClientConfig t) = Bool.eqb (VerifyCerts (opts i)) false.
Proof.
  rewrite newHTTPTransport_unfold. unfold bind.
  destruct (range_CACertPaths _ _ _) as [[pool|err] s1]; unfold ret; intros E;
    [|discriminate].
  injection E as <- <-. split; reflexivity.
Qed.

Lemma reads_snoc good bad : reads (good ++ [bad]) = reads good ++ [Call (call_ReadFile bad)].
Proof. unfold reads. now rewrite map_app. Qed.

Lemma range_read_fails w pool good pool1 bad rest err tr :
  appended w pool good pool1 ->
  ioutil_ReadFile bad w = Err err ->
  range_CACertPaths pool (good ++ bad :: rest) {| world := w; trace := tr |}
  = (Err (errorString
            ("Reading CA certificates from '" ++ bad ++ "': " ++ Error err)),
     {| world := w; trace := tr ++ reads (good ++ [bad]) |}).
Proof.
  intros Ha Hr. rewrite (range_appended w pool good pool1 Ha).
  cbn [range_CACertPaths]. unfold bind. rewrite invoke_observe.
  cbn [world trace]. rewrite Hr. unfold ret.
  now rewrite Errorf_reading, reads_snoc, app_assoc.
Qed.

Lemma range_append_fails w pool good pool1 bad rest certs tr :
  appended w pool good pool1 ->
  ioutil_ReadFile bad w = Ok certs ->
  snd (AppendCertsFromPEM pool1 certs) = false ->
  range_CACertPaths pool (good ++ bad :: rest) {| world := w; trace := tr |}
  = (Err (errorString ("Adding CA certificates from '" ++ bad ++ "': failed")),
     {| world := w; trace := tr ++ reads (good ++ [bad]) |}).
Proof.
  intros Ha Hr Hok. rewrite (range_appended w pool good pool1 Ha).
  cbn [range_CACertPaths]. unfold bind. rewrite invoke_observe.
  cbn [world trace]. rewrite Hr.
  destruct (AppendCertsFromPEM pool1 certs) as [pool2 ok]. cbn [snd] in Hok.
  subst ok. cbn [negb]. unfold ret.
  now rewrite Errorf_adding, reads_snoc, app_assoc.
Qed.

(** ** The keychain *)

(** C1: the keychain of a configuration resolves a registry by fixed
    precedence, first match wins: a non-empty username gives
    Basic(username, password), whatever the token and the anonymous flag;
    else a non-empty token gives Bearer(token); else the anonymous flag
    gives Anonymous; else the answer is the one of the default keychain
    for that registry. The first three make no call. *)
Theorem Resolve_precedence (o : RegistryOpts) (res : Resource) (s : State) :
  let k := registryKeychain (NewRegistry o) in
  (Username o <> "" ->
   Resolve k res s = (Ok (Basic (Username o) (Password o)), s)) /\
  (Username o = "" -> Token o <> "" ->
   Resolve k res s = (Ok (Bearer (Token o)), s)) /\
  (Username o = "" -> Token o = "" -> Anon o = true ->
   Resolve k res s = (Ok Anonymous, s)) /\
  (Username o = "" -> Token o = "" -> Anon o = false ->
   Resolve k res s
   = (DefaultKeychain_Resolve res (world s),
      {| world := world s;
         trace := trace s ++ [Call (call_DefaultKeychain_Resolve res)] |})).
Proof.
  destruct o as [paths verify username password token anon].
  cbn -[Resolve]. unfold Resolve. cbn [kopts Username Password Token Anon].
  repeat split.
  - intros Hu. destruct username; [contradiction | reflexivity].
  - intros -> Ht. destruct token; [contradiction | reflexivity].
  - intros -> -> ->. reflexivity.
  - intros -> -> ->. reflexivity.
Qed.

(** ** The transport *)

(** C6: transport building starts its pool from the system trust store,
    or from an empty pool when the store is unavailable, and that never
    fails the build; it then reads the configured files in order and
    appends each one's bytes as PEM certificates. When every file reads
    and parses the build succeeds with the pool so filled. At the first
    file that cannot be read it fails with
    "Reading CA certificates from '<path>': <cause>", at the first file
    without a PEM certificate with
    "Adding CA certificates from '<path>': failed": both name the path. *)
Theorem newHTTPTransport_trust_pool (i : Registry) w tr :
  (forall pool, x509_SystemCertPool w = Ok pool -> start_pool w = pool) /\
  (forall err, x509_SystemCertPool w = Err err -> start_pool w = x509_NewCertPool) /\
  (forall pool,
     appended w (start_pool w) (CACertPaths (opts i)) pool ->
     exists t,
       newHTTPTransport i {| world := w; trace := tr |}
       = (Ok t, {| world := w;
                   trace := tr ++ Call call_SystemCertPool
                               :: reads (CACertPaths (opts i)) |}) /\
       RootCAs (TLSClientConfig t) = pool) /\
  (forall good bad rest pool err,
     CACertPaths (opts i) = good ++ bad :: rest ->
     appended w (start_pool w) good pool ->
     ioutil_ReadFile bad w = Err err ->
     newHTTPTransport i {| world := w; trace := tr |}
     = (Err (errorString
               ("Reading CA certificates from '" ++ bad ++ "': " ++ Error err)),
        {| world := w;
           trace := tr ++ Call call_SystemCertPool :: reads (good ++ [bad]) |})) /\
  (forall good bad rest pool certs,
     CACertPaths (opts i) = good ++ bad :: rest ->
     appended w (start_pool w) good pool ->
     ioutil_ReadFile bad w = Ok certs ->
     snd (AppendCertsFromPEM pool certs) = false ->
     newHTTPTransport i {| world := w; trace := tr |}
     = (Err (errorString ("Adding CA certificates from '" ++ bad ++ "': failed")),
        {| world := w;
           trace := tr ++ Call call_SystemCertPool :: reads (good ++ [bad]) |})).
Proof.
  repeat split.
  - intros pool E. unfold start_pool. now rewrite E.
  - intros err E. unfold start_pool. now rewrite E.
  - intros pool Ha.
    pose proof (range_appended w _ _ _ Ha [] (tr ++ [Call call_SystemCertPool])) as E.
    rewrite app_nil_r in E. cbn [range_CACertPaths] in E. unfold ret in E.
    rewrite <- app_assoc in E.
    destruct (newHTTPTransport_Ok i w tr _ _ E) as [t [Et Hp]]. now exists t.
  - intros good bad rest pool err Hp Ha Hr.
    apply newHTTPTransport_Err. rewrite Hp.
    rewrite (range_read_fails w _ good pool bad rest err _ Ha Hr).
    now rewrite <- app_assoc.
  - intros good bad rest pool certs Hp Ha Hr Hok.
    apply newHTTPTransport_Err. rewrite Hp.
    rewrite (range_append_fails w _ good pool bad rest certs _ Ha Hr Hok).
    now rewrite <- app_assoc.
Qed.

(** C7: whenever a transport is built, its TLS config skips certificate
    verification exactly when [VerifyCerts] is false, whatever the other
    fields of the configuration, and its root pool is the one started from
    the system store (or empty) to which the configured CA files were
    appended in order. The package gives [VerifyCerts] no default: with
    the options left at their zero value verification is skipped. *)
Theorem newHTTPTransport_tls_config (i : Registry) w tr t s' :
  newHTTPTransport i {| world := w; trace := tr |} = (Ok t, s') ->
  InsecureSkipVerify (TLSClientConfig t) = negb (VerifyCerts (opts i)) /\
  (InsecureSkipVerify (TLSClientConfig t) = true <-> VerifyCerts (opts i) = false) /\
  (VerifyCerts (opts i) = true -> InsecureSkipVerify (TLSClientConfig t) = false) /\
  appended w (start_pool w) (CACertPaths (opts i)) (RootCAs (TLSClientConfig t)) /\
  (opts i = RegistryOpts_zero -> InsecureSkipVerify (TLSClientConfig t) = true).
Proof.
  intros E. apply newHTTPTransport_Ok_inv in E as [Er Hskip].
  apply range_Ok in Er. rewrite Hskip.
  split; [destruct (VerifyCerts (opts i)); reflexivity|].
  split; [destruct (VerifyCerts (opts i)); cbn; intuition congruence|].
  split; [intros ->; reflexivity|].
  split; [exact Er|].
  intros ->. reflexivity.
Qed.

(** ** The facade *)

Lemma Errorf_auth (err : error) :
  fmt_Errorf "Getting auth details: %s" [arg_error (Some err)]
  = errorString ("Getting auth details: " ++ Error err).
Proof.
  unfold fmt_Errorf; cbn. now rewrite append_empty_r.
Qed.

Lemma Errorf_writing_image (err : error) :
  fmt_Errorf "Writing image: %s" [arg_error (Some err)]
  = errorString ("Writing image: " ++ Error err).
Proof.
  unfold fmt_Errorf; cbn. now rewrite append_empty_r.
Qed.

Lemma Errorf_writing_index (err : error) :
  fmt_Errorf "Writing image index: %s" [arg_error (Some err)]
  = errorString ("Writing image index: " ++ Error err).
Proof.
  unfold fmt_Errorf; cbn. now rewrite append_empty_r.
Qed.

Lemma single_attempt_ret {A} (a : A) : single_attempt (ret a).
Proof. intros s. cbn. split; [reflexivity | lia]. Qed.

Lemma single_attempt_invoke {A} c (f : World -> A * World) :
  single_attempt (invoke c f).
Proof.
  intros s. unfold invoke. destruct (f (world s)) as [a w1]. cbn [snd trace].
  rewrite sleeps_app, network_calls_app, length_app. cbn [sleeps].
  rewrite app_nil_r. split; [reflexivity|].
  unfold network_calls. cbn [calls filter]. destruct (is_network c); simpl; lia.
Qed.

Lemma single_attempt_bind {A B} (m : M A) (k : A -> M B) :
  local m -> (forall a, single_attempt (k a)) -> single_attempt (bind m k).
Proof.
  intros Hm Hk s. unfold bind.
  destruct (m s) as [a s1] eqn:E.
  destruct (local_run m s a s1 Hm E) as (_ & Hn & Hs).
  destruct (Hk a s1) as [Hs' Hn']. rewrite <- Hn, <- Hs. now split.
Qed.

Lemma single_attempt_then {A B} (m : M A) (k : A -> M B) :
  single_attempt m -> (forall a, local (k a)) -> single_attempt (bind m k).
Proof.
  intros Hm Hk s. unfold bind.
  destruct (m s) as [a s1] eqn:E.
  specialize (Hm s). rewrite E in Hm. cbn [snd] in Hm. destruct Hm as [Hs Hn].
  destruct (Hk a s1) as (_ & Hn' & Hs'). rewrite Hn', Hs'. now split.
Qed.

Lemma local_imageOpts (i : Registry) : local (imageOpts i).
Proof.
  unfold imageOpts. apply local_bind; [apply local_newHTTPTransport|].
  intros [t|err]; apply local_ret.
Qed.

(** C4, as the code has it: once the transport is built, [WriteImage],
    [WriteIndex] and [ListTags] resolve the credentials themselves, and
    when that fails with [cause] they return
    "Getting auth details: <cause>" having made no network call: the
    write or list call is not invoked. [Generic], [Image] and [Index] do
    not resolve credentials: they hand the keychain to the registry
    library call and return that call's failure as it is. *)
Theorem auth_failure_fails_fast (i : Registry) s httpTran s1 :
  newHTTPTransport i s = (Ok httpTran, s1) ->
  (forall ref img cause s2,
     Resolve (registryKeychain i) (repo_Registry (ref_Context ref)) s1
     = (Err cause, s2) ->
     WriteImage i ref img s
     = (Some (errorString ("Getting auth details: " ++ Error cause)), s2) /\
     network_calls (trace s2) = network_calls (trace s)) /\
  (forall ref idx cause s2,
     Resolve (registryKeychain i) (repo_Registry (ref_Context ref)) s1
     = (Err cause, s2) ->
     WriteIndex i ref idx s
     = (Some (errorString ("Getting auth details: " ++ Error cause)), s2) /\
     network_calls (trace s2) = network_calls (trace s)) /\
  (forall repo cause s2,
     Resolve (registryKeychain i) (repo_Registry repo) s1 = (Err cause, s2) ->
     ListTags i repo s
     = (Err (errorString ("Getting auth details: " ++ Error cause)), s2) /\
     network_calls (trace s2) = network_calls (trace s)) /\
  (let os := [WithTransport httpTran; WithAuthFromKeychain (registryKeychain i)] in
   forall ref,
     (forall err w2,
        regremote_Get ref os (world s1) = (Err err, w2) ->
        fst (Generic i ref s) = Err err) /\
     (forall err w2,
        regremote_Image ref os (world s1) = (Err err, w2) ->
        fst (Image i ref s) = Err err) /\
     (forall err w2,
        regremote_Index ref os (world s1) = (Err err, w2) ->
        fst (Index i ref s) = Err err) /\
     calls (trace (snd (Generic i ref s)))
     = calls (trace s1) ++ [call_regremote_Get ref os] /\
     calls (trace (snd (Image i ref s)))
     = calls (trace s1) ++ [call_regremote_Image ref os] /\
     calls (trace (snd (Index i ref s)))
     = calls (trace s1) ++ [call_regremote_Index ref os]).
Proof.
  intros Ht.
  assert (Hloc : forall res cause s2,
             Resolve (registryKeychain i) res s1 = (Err cause, s2) ->
             network_calls (trace s2) = network_calls (trace s)).
  { intros res cause s2 Hr.
    destruct (local_run _ _ _ _ (local_newHTTPTransport i) Ht) as (_ & Hn & _).
    destruct (local_run _ _ _ _ (local_Resolve _ res) Hr) as (_ & Hn' & _).
    congruence. }
  repeat split.
  - unfold WriteImage, bind. rewrite Ht, H. unfold ret. now rewrite Errorf_auth.
  - eapply Hloc; eauto.
  - unfold WriteIndex, bind. rewrite Ht, H. unfold ret. now rewrite Errorf_auth.
  - eapply Hloc; eauto.
  - unfold ListTags, bind. rewrite Ht, H. unfold ret. now rewrite Errorf_auth.
  - eapply Hloc; eauto.
  - intros err w2 Hg. unfold Generic, imageOpts, bind. rewrite Ht.
    unfold ret, invoke. now rewrite Hg.
  - intros err w2 Hg. unfold Image, imageOpts, bind. rewrite Ht.
    unfold ret, invoke. now rewrite Hg.
  - intros err w2 Hg. unfold Index, imageOpts, bind. rewrite Ht.
    unfold ret, invoke. now rewrite Hg.
  - unfold Generic, imageOpts, bind. rewrite Ht. unfold ret, invoke.
    destruct (regremote_Get _ _ _) as [[d|err] w2]; cbn [snd trace];
      now rewrite calls_app.
  - unfold Image, imageOpts, bind. rewrite Ht. unfold ret, invoke.
    destruct (regremote_Image _ _ _) as [r w2]; cbn [snd trace];
      now rewrite calls_app.
  - unfold Index, imageOpts, bind. rewrite Ht. unfold ret, invoke.
    destruct (regremote_Index _ _ _) as [r w2]; cbn [snd trace];
      now rewrite calls_app.
Qed.

(** C8: the four reads ([Generic], [Image], [Index], [ListTags]) are not
    retried: they never sleep and make at most one network call. The two
    writes run their registry call under [retry]; when [retry] returns a
    failure [cause], [WriteImage] returns "Writing image: <cause>" and
    [WriteIndex] returns "Writing image index: <cause>", and when it
    returns nil so do they. *)
Theorem retry_wraps_only_writes (i : Registry) :
  (forall ref, single_attempt (Generic i ref)) /\
  (forall ref, single_attempt (Image i ref)) /\
  (forall ref, single_attempt (Index i ref)) /\
  (forall repo, single_attempt (ListTags i repo)) /\
  (forall ref img s httpTran s1 auth s2 r s3,
     newHTTPTransport i s = (Ok httpTran, s1) ->
     Resolve (registryKeychain i) (repo_Registry (ref_Context ref)) s1
     = (Ok auth, s2) ->
     let os := [WithAuth auth; WithTransport httpTran] in
     retry i (operation (call_regremote_Write ref img os)
                        (regremote_Write ref img os)) s2 = (r, s3) ->
     WriteImage i ref img s
     = (match r with
        | Some cause => Some (errorString ("Writing image: " ++ Error cause))
        | None => None
        end, s3)) /\
  (forall ref idx s httpTran s1 auth s2 r s3,
     newHTTPTransport i s = (Ok httpTran, s1) ->
     Resolve (registryKeychain i) (repo_Registry (ref_Context ref)) s1
     = (Ok auth, s2) ->
     let os := [WithAuth auth; WithTransport httpTran] in
     retry i (operation (call_regremote_WriteIndex ref idx os)
                        (regremote_WriteIndex ref idx os)) s2 = (r, s3) ->
     WriteIndex i ref idx s
     = (match r with
        | Some cause => Some (errorString ("Writing image index: " ++ Error cause))
        | None => None
        end, s3)).
Proof.
  split; [|split; [|split; [|split; [|split]]]].
  - intros ref. apply (single_attempt_bind _ _ (local_imageOpts i)).
    intros [os|err]; [|apply single_attempt_ret].
    apply single_attempt_then; [apply single_attempt_invoke|].
    intros [d|err]; apply local_ret.
  - intros ref. apply (single_attempt_bind _ _ (local_imageOpts i)).
    intros [os|err]; [apply single_attempt_invoke | apply single_attempt_ret].
  - intros ref. apply (single_attempt_bind _ _ (local_imageOpts i)).
    intros [os|err]; [apply single_attempt_invoke | apply single_attempt_ret].
  - intros repo. apply (single_attempt_bind _ _ (local_newHTTPTransport i)).
    intros [httpTran|err]; [|apply single_attempt_ret].
    apply (single_attempt_bind _ _ (local_Resolve _ _)).
    intros [auth|err]; [apply single_attempt_invoke | apply single_attempt_ret].
  - intros ref img s httpTran s1 auth s2 r s3 Ht Hr os Hretry. unfold WriteImage, bind. rewrite Ht, Hr.
    unfold operation in Hretry. fold os. rewrite Hretry.
    destruct r as [cause|]; unfold ret; [|reflexivity].
    now rewrite Errorf_writing_image.
  - intros ref idx s httpTran s1 auth s2 r s3 Ht Hr os Hretry.
    unfold WriteIndex, bind. rewrite Ht, Hr.
    unfold operation in Hretry. fold os. rewrite Hretry.
    destruct r as [cause|]; unfold ret; [|reflexivity].
    now rewrite Errorf_writing_index.
Qed.

End Properties.

(** ** Further behaviour of the retry loop *)

Section Behaviour.

Context {T : Types} {L : Library}.

Lemma last_map_Some {A} (front : list A) (x : A) (d : option A) :
  last (map Some (front ++ [x])) d = Some x.
Proof.
  rewrite map_app. cbn [map]. apply last_last.
Qed.

Lemma sleeps_failed_attempts c n :
  sleeps (failed_attempts c n) = repeat Second n.
Proof.
  induction n as [|n IH]; simpl; [reflexivity | now rewrite IH].
Qed.

Lemma calls_failed_attempts c n :
  calls (failed_attempts c n) = repeat c n.
Proof.
  induction n as [|n IH]; simpl; [reflexivity | now rewrite IH].
Qed.

(** Every run of the loop has one of three shapes: the iterations are used
    up by failures, or a run of failures ends with a success, or it ends
    with an unauthorized failure. *)
Lemma retry_loop_cases c body n :
  forall w tr lastErr,
  exists errs w1,
    fails body w errs w1 /\
    Forall (fun err => unauthorized err = false) errs /\
    ((List.length errs = n /\
      retry_loop n (operation c body) lastErr {| world := w; trace := tr |}
      = (Some (fmt_Errorf "Retried 5 times: %s"
                 [arg_error (last (map Some errs) lastErr)]),
         {| world := w1; trace := tr ++ failed_attempts c n |}))
     \/
     ((List.length errs < n)%nat /\
      exists w2,
        body w1 = (None, w2) /\
        retry_loop n (operation c body) lastErr {| world := w; trace := tr |}
        = (None,
           {| world := w2;
              trace := tr ++ failed_attempts c (List.length errs) ++ [Call c] |}))
     \/
     ((List.length errs < n)%nat /\
      exists err w2,
        body w1 = (Some err, w2) /\
        unauthorized err = true /\
        retry_loop n (operation c body) lastErr {| world := w; trace := tr |}
        = (Some (errorString ("Non-retryable error: " ++ Error err)),
           {| world := w2;
              trace := tr ++ failed_attempts c (List.length errs) ++ [Call c] |}))).
Proof.
  induction n as [|n IH]; intros w tr lastErr.
  - exists [], w. split; [constructor|]. split; [constructor|].
    left. split; [reflexivity|]. cbn. unfold ret. now rewrite app_nil_r.
  - destruct (body w) as [[err|] w'] eqn:Hb.
    + destruct (unauthorized err) eqn:Hu.
      * exists [], w. split; [constructor|]. split; [constructor|].
        right; right. split; [simpl; lia|]. exists err, w'.
        repeat split; trivial.
        now rewrite (retry_step_unauthorized c body n lastErr w tr err w' Hb Hu).
      * destruct (IH (elapse (1 * Second)%Z w')
                     (tr ++ [Call c; Sleep (1 * Second)%Z]) (Some err))
          as (errs & w1 & Hf & Hall & Hcases).
        exists (err :: errs), w1.
        split; [econstructor; eauto|]. split; [constructor; auto|].
        rewrite (retry_step_retryable c body n lastErr w tr err w' Hb Hu).
        cbn [List.length failed_attempts].
        destruct Hcases as [[Hlen E] | [[Hlen (w2 & Hb2 & E)]
                                       | [Hlen (err2 & w2 & Hb2 & Hu2 & E)]]].
        -- left. split; [now rewrite Hlen|].
           assert (Hlast : last (map Some (err :: errs)) lastErr
                           = last (map Some errs) (Some err)).
           { destruct errs as [|err' errs]; [reflexivity|].
             change (last (map Some (err :: err' :: errs)) lastErr)
               with (last (map Some (err' :: errs)) lastErr).
             apply last_cons_default. }
           rewrite Hlast, E. now rewrite <- app_assoc.
        -- right; left. split; [lia|]. exists w2. split; [exact Hb2|].
           rewrite E. now rewrite <- app_assoc.
        -- right; right. split; [lia|]. exists err2, w2.
           repeat split; trivial. rewrite E. now rewrite <- app_assoc.
    + exists [], w. split; [constructor|]. split; [constructor|].
      right; left. split; [simpl; lia|]. exists w'. split; [exact Hb|].
      now rewrite (retry_step_success c body n lastErr w tr w' Hb).
Qed.

(** X1: every run of [retry] is one of three: five failures in a row, none
    unauthorized, and the error "Retried 5 times: <last failure>"; or fewer
    than five such failures and then a success, returned as nil; or fewer
    than five such failures and then an unauthorized one, returned as
    "Non-retryable error: <it>". In the last two the trace ends with the
    call that decided. The operation's own error is never returned as it
    is. *)
Theorem retry_cases (i : Registry) c body w tr :
  exists errs w1,
    fails body w errs w1 /\
    Forall (fun err => unauthorized err = false) errs /\
    ((exists front cause,
        errs = front ++ [cause] /\ List.length errs = 5%nat /\
        retry i (operation c body) {| world := w; trace := tr |}
        = (Some (errorString ("Retried 5 times: " ++ Error cause)),
           {| world := w1; trace := tr ++ failed_attempts c 5 |}))
     \/
     ((List.length errs < 5)%nat /\
      exists w2,
        body w1 = (None, w2) /\
        retry i (operation c body) {| world := w; trace := tr |}
        = (None,
           {| world := w2;
              trace := tr ++ failed_attempts c (List.length errs) ++ [Call c] |}))
     \/
     ((List.length errs < 5)%nat /\
      exists err w2,
        body w1 = (Some err, w2) /\
        unauthorized err = true /\
        retry i (operation c body) {| world := w; trace := tr |}
        = (Some (errorString ("Non-retryable error: " ++ Error err)),
           {| world := w2;
              trace := tr ++ failed_attempts c (List.length errs) ++ [Call c] |}))).
Proof.
  destruct (retry_loop_cases c body 5 w tr None)
    as (errs & w1 & Hf & Hall & Hcases).
  exists errs, w1. split; [exact Hf|]. split; [exact Hall|].
  destruct Hcases as [[Hlen E] | [H | H]]; [left | right; left | right; right];
    trivial.
  destruct (exists_last (l := errs)) as (front & cause & ->);
    [intros ->; discriminate|].
  exists front, cause. split; [reflexivity|]. split; [exact Hlen|].
  unfold retry. rewrite E, last_map_Some. now rewrite Errorf_retried.
Qed.

(** X2: whatever the operation does, [retry] calls it [n] times and sleeps
    [k] times, one second each, with [k <= n <= 5] and [n <= k + 1]; when
    the result is nil the last call is not followed by a sleep. *)
Theorem retry_trace_bounds (i : Registry) c body w tr :
  exists k n,
    sleeps (trace (snd (retry i (operation c body) {| world := w; trace := tr |})))
    = sleeps tr ++ repeat Second k /\
    calls (trace (snd (retry i (operation c body) {| world := w; trace := tr |})))
    = calls tr ++ repeat c n /\
    (k <= n)%nat /\ (n <= k + 1)%nat /\ (n <= 5)%nat /\
    (fst (retry i (operation c body) {| world := w; trace := tr |}) = None ->
     n = S k).
Proof.
  destruct (retry_loop_cases c body 5 w tr None)
    as (errs & w1 & Hf & Hall & Hcases).
  unfold retry.
  destruct Hcases as [[Hlen E] | [[Hlen (w2 & Hb2 & E)]
                                 | [Hlen (err2 & w2 & Hb2 & Hu2 & E)]]];
    rewrite E; cbn [fst snd trace].
  - exists 5%nat, 5%nat.
    rewrite sleeps_app, calls_app, sleeps_failed_attempts, calls_failed_attempts.
    repeat split; try lia; try discriminate.
  - exists (List.length errs), (S (List.length errs)).
    rewrite !sleeps_app, !calls_app, sleeps_failed_attempts, calls_failed_attempts.
    cbn [sleeps calls]. rewrite app_nil_r.
    replace (repeat c (List.length errs) ++ [c]) with (repeat c (S (List.length errs)))
      by (rewrite <- repeat_cons; reflexivity).
    repeat split; lia.
  - exists (List.length errs), (S (List.length errs)).
    rewrite !sleeps_app, !calls_app, sleeps_failed_attempts, calls_failed_attempts.
    cbn [sleeps calls]. rewrite app_nil_r.
    replace (repeat c (List.length errs) ++ [c]) with (repeat c (S (List.length errs)))
      by (rewrite <- repeat_cons; reflexivity).
    repeat split; try lia; try discriminate.
Qed.

(** X3: after any number of failures below five, none unauthorized, a
    success is returned as nil: one sleep of a second per failure, one call
    more than there were failures. With no failure at all there is one
    call and no sleep. *)
Theorem retry_recovers (i : Registry) c body errs w w1 w2 tr :
  fails body w errs w1 ->
  Forall (fun err => unauthorized err = false) errs ->
  (List.length errs < 5)%nat ->
  body w1 = (None, w2) ->
  fst (retry i (operation c body) {| world := w; trace := tr |}) = None /\
  world (snd (retry i (operation c body) {| world := w; trace := tr |})) = w2 /\
  sleeps (trace (snd (retry i (operation c body) {| world := w; trace := tr |})))
  = sleeps tr ++ repeat Second (List.length errs) /\
  calls (trace (snd (retry i (operation c body) {| world := w; trace := tr |})))
  = calls tr ++ repeat c (S (List.length errs)).
Proof.
  intros Hf Hall Hlen Hb.
  rewrite (retry_failures_then_success i c body errs w w1 w2 tr Hf Hall Hlen Hb).
  cbn [fst snd world trace].
  rewrite !sleeps_app, !calls_app, sleeps_failed_attempts, calls_failed_attempts.
  cbn [sleeps calls]. rewrite app_nil_r.
  repeat split. f_equal. rewrite <- repeat_cons. reflexivity.
Qed.

(** ** Further behaviour of transport building *)

(** From any pool, either every file of [paths] reads and parses, or
    there is a first one that does not. *)
Lemma appended_or_offending w paths :
  forall pool,
    (exists pool', appended w pool paths pool') \/
    (exists good bad rest pool1,
       paths = good ++ bad :: rest /\
       appended w pool good pool1 /\
       ((exists err, ioutil_ReadFile bad w = Err err) \/
        (exists certs,
           ioutil_ReadFile bad w = Ok certs /\
           snd (AppendCertsFromPEM pool1 certs) = false))).
Proof.
  induction paths as [|path paths IH]; intros pool.
  - left. exists pool. constructor.
  - destruct (ioutil_ReadFile path w) as [certs|err] eqn:Hr.
    + destruct (AppendCertsFromPEM pool certs) as [pool1 ok] eqn:Ha.
      destruct ok.
      * destruct (IH pool1) as [[pool' Happ]
                               | (good & bad & rest & pool2 & -> & Happ & Hbad)].
        -- left. exists pool'. econstructor; eauto.
        -- right. exists (path :: good), bad, rest, pool2.
           split; [reflexivity|]. split; [econstructor; eauto | exact Hbad].
      * right. exists [], path, paths, pool.
        split; [reflexivity|]. split; [constructor|].
        right. exists certs. split; [exact Hr|]. now rewrite Ha.
    + right. exists [], path, paths, pool.
      split; [reflexivity|]. split; [constructor|]. left. now exists err.
Qed.

(** X4: transport building has three outcomes and no other. Either every
    configured file reads and parses, and the transport is built on the
    pool they fill; or the build fails at the first file that cannot be
    read, with "Reading CA certificates from '<path>': <cause>"; or it
    fails at the first file without a PEM certificate, with
    "Adding CA certificates from '<path>': failed". The files after the
    offending one are not read, and the world is left as it was. *)
Theorem newHTTPTransport_cases (i : Registry) w tr :
  (exists t pool,
     appended w (start_pool w) (CACertPaths (opts i)) pool /\
     RootCAs (TLSClientConfig t) = pool /\
     newHTTPTransport i {| world := w; trace := tr |}
     = (Ok t, {| world := w;
                 trace := tr ++ Call call_SystemCertPool
                             :: reads (CACertPaths (opts i)) |}))
  \/
  (exists good bad rest pool,
     CACertPaths (opts i) = good ++ bad :: rest /\
     appended w (start_pool w) good pool /\
     ((exists err,
         ioutil_ReadFile bad w = Err err /\
         newHTTPTransport i {| world := w; trace := tr |}
         = (Err (errorString
                   ("Reading CA certificates from '" ++ bad ++ "': " ++ Error err)),
            {| world := w;
               trace := tr ++ Call call_SystemCertPool :: reads (good ++ [bad]) |}))
      \/
      (exists certs,
         ioutil_ReadFile bad w = Ok certs /\
         snd (AppendCertsFromPEM pool certs) = false /\
         newHTTPTransport i {| world := w; trace := tr |}
         = (Err (errorString
                   ("Adding CA certificates from '" ++ bad ++ "': failed")),
            {| world := w;
               trace := tr ++ Call call_SystemCertPool :: reads (good ++ [bad]) |})))).
Proof.
  destruct (appended_or_offending w (CACertPaths (opts i)) (start_pool w))
    as [[pool Happ] | (good & bad & rest & pool & Hp & Happ & Hbad)].
  - left.
    pose proof (range_appended w _ _ _ Happ [] (tr ++ [Call call_SystemCertPool])) as E.
    rewrite app_nil_r in E. cbn [range_CACertPaths] in E. unfold ret in E.
    rewrite <- app_assoc in E.
    destruct (newHTTPTransport_Ok i w tr _ _ E) as [t [Et Hpool]].
    now exists t, pool.
  - right. exists good, bad, rest, pool. split; [exact Hp|]. split; [exact Happ|].
    destruct Hbad as [[err Hr] | (certs & Hr & Hok)].
    + left. exists err. split; [exact Hr|].
      apply newHTTPTransport_Err. rewrite Hp.
      rewrite (range_read_fails w _ good pool bad rest err _ Happ Hr).
      now rewrite <- app_assoc.
    + right. exists certs. split; [exact Hr|]. split; [exact Hok|].
      apply newHTTPTransport_Err. rewrite Hp.
      rewrite (range_append_fails w _ good pool bad rest certs _ Happ Hr Hok).
      now rewrite <- app_assoc.
Qed.

(** X5: building a transport, resolving credentials and preparing the
    options of a read are local: whatever the configuration and the
    outcome, they make no network call, do not sleep and leave the world
    as it was. *)
Theorem setup_is_local (i : Registry) (res : Resource) :
  local (newHTTPTransport i) /\
  local (Resolve (registryKeychain i) res) /\
  local (imageOpts i).
Proof.
  split; [apply local_newHTTPTransport|].
  split; [apply local_Resolve | apply local_imageOpts].
Qed.

(** X6: every transport that is built has the same connection settings,
    whatever the configuration: proxy from the environment, dial timeout
    and keep-alive of 30 seconds with dual-stack dialing, at most 100 idle
    connections kept for 90 seconds, 10 seconds for the TLS handshake and
    for the response headers, 1 second for the expect-continue wait. *)
Theorem newHTTPTransport_settings (i : Registry) s t s' :
  newHTTPTransport i s = (Ok t, s') ->
  Proxy t = ProxyFromEnvironment /\
  Timeout (DialContext t) = 30000000000%Z /\
  KeepAlive (DialContext t) = 30000000000%Z /\
  DualStack (DialContext t) = true /\
  MaxIdleConns t = 100%Z /\
  IdleConnTimeout t = 90000000000%Z /\
  TLSHandshakeTimeout t = 10000000000%Z /\
  ResponseHeaderTimeout t = 10000000000%Z /\
  ExpectContinueTimeout t = 1000000000%Z.
Proof.
  destruct s as [w tr]. rewrite newHTTPTransport_unfold. unfold bind.
  destruct (range_CACertPaths _ _ _) as [[pool|err] s1]; unfold ret; intros E;
    [|discriminate].
  injection E as <- _. repeat split.
Qed.

(** ** Further behaviour of the keychain *)

Lemma Resolve_Err_inv k res s cause s' :
  Resolve k res s = (Err cause, s') ->
  Username (kopts k) = "" /\ Token (kopts k) = "" /\ Anon (kopts k) = false /\
  DefaultKeychain_Resolve res (world s) = Err cause.
Proof.
  unfold Resolve.
  destruct (Username (kopts k)) as [|c1 u]; cbn; [|discriminate].
  destruct (Token (kopts k)) as [|c2 t]; cbn; [|discriminate].
  destruct (Anon (kopts k)); cbn; [discriminate|].
  intros E. injection E as E _. auto.
Qed.

(** X7: resolving credentials fails exactly when the configuration has no
    username, no token and no anonymous flag and the default keychain
    fails for the registry; the failure is the default keychain's own. *)
Theorem Resolve_fails_iff k res s cause :
  fst (Resolve k res s) = Err cause <->
  Username (kopts k) = "" /\ Token (kopts k) = "" /\ Anon (kopts k) = false /\
  DefaultKeychain_Resolve res (world s) = Err cause.
Proof.
  split.
  - destruct (Resolve k res s) as [r s'] eqn:E. cbn [fst]. intros ->.
    exact (Resolve_Err_inv k res s cause s' E).
  - intros (Hu & Ht & Ha & Hd). unfold Resolve. rewrite Hu, Ht, Ha. cbn.
    exact Hd.
Qed.

(** X8: without a username the password is not used: two configurations
    with no username and the same token and anonymous flag resolve every
    registry alike, whatever their passwords and their other fields. *)
Theorem Resolve_ignores_password (o1 o2 : RegistryOpts) res s :
  Username o1 = "" -> Username o2 = "" ->
  Token o1 = Token o2 -> Anon o1 = Anon o2 ->
  Resolve (registryKeychain (NewRegistry o1)) res s
  = Resolve (registryKeychain (NewRegistry o2)) res s.
Proof.
  intros H1 H2 Ht Ha. unfold Resolve. cbn [registryKeychain NewRegistry opts kopts].
  now rewrite H1, H2, Ht, Ha.
Qed.

(** ** Further behaviour of the facade *)

(** The loop sleeps, and calls the registry, at most once per iteration. *)
Lemma retry_loop_bounds c body n :
  forall lastErr s,
    (List.length (sleeps (trace (snd (retry_loop n (operation c body) lastErr s))))
     <= List.length (sleeps (trace s)) + n)%nat /\
    (List.length (network_calls (trace (snd (retry_loop n (operation c body) lastErr s))))
     <= List.length (network_calls (trace s)) + n)%nat.
Proof.
  assert (Hone : forall tr, (List.length (network_calls (tr ++ [Call c]))
                             <= List.length (network_calls tr) + 1)%nat).
  { intros tr. rewrite network_calls_app, length_app. unfold network_calls.
    cbn [calls filter]. destruct (is_network c); simpl; lia. }
  induction n as [|n IH]; intros lastErr [w tr].
  - simpl. lia.
  - destruct (body w) as [[err|] w1] eqn:Hb.
    + destruct (unauthorized err) eqn:Hu.
      * rewrite (retry_step_unauthorized c body n lastErr w tr err w1 Hb Hu).
        cbn [snd trace]. rewrite sleeps_app, length_app. specialize (Hone tr).
        simpl. lia.
      * rewrite (retry_step_retryable c body n lastErr w tr err w1 Hb Hu).
        destruct (IH (Some err)
          {| world := elapse (1 * Second)%Z w1;
             trace := tr ++ [Call c; Sleep (1 * Second)%Z] |}) as [Hs Hn].
        remember (retry_loop n (operation c body) (Some err) _) as r eqn:Hr.
        clear Hr. cbn [trace] in Hs, Hn.
        change (tr ++ [Call c; Sleep (1 * Second)%Z])
          with (tr ++ [Call c] ++ [Sleep (1 * Second)%Z]) in Hs, Hn.
        rewrite app_assoc in Hs, Hn.
        rewrite sleeps_app, length_app, sleeps_app, length_app in Hs.
        rewrite network_calls_app, length_app in Hn.
        specialize (Hone tr). cbn in Hs, Hn. cbn [trace]. lia.
    + rewrite (retry_step_success c body n lastErr w tr w1 Hb).
      cbn [snd trace]. rewrite sleeps_app, length_app. specialize (Hone tr).
      simpl. lia.
Qed.

(** The three outcomes of [retry], from any state. *)
Lemma retry_outcomes (i : Registry) c body s :
  exists errs w1,
    fails body (world s) errs w1 /\
    Forall (fun err => unauthorized err = false) errs /\
    ((exists front cause,
        errs = front ++ [cause] /\ List.length errs = 5%nat /\
        retry i (operation c body) s
        = (Some (errorString ("Retried 5 times: " ++ Error cause)),
           {| world := w1; trace := trace s ++ failed_attempts c 5 |}))
     \/
     ((List.length errs < 5)%nat /\
      exists w2,
        body w1 = (None, w2) /\
        retry i (operation c body) s
        = (None,
           {| world := w2;
              trace := trace s ++ failed_attempts c (List.length errs) ++ [Call c] |}))
     \/
     ((List.length errs < 5)%nat /\
      exists err w2,
        body w1 = (Some err, w2) /\
        unauthorized err = true /\
        retry i (operation c body) s
        = (Some (errorString ("Non-retryable error: " ++ Error err)),
           {| world := w2;
              trace := trace s ++ failed_attempts c (List.length errs) ++ [Call c] |}))).
Proof.
  destruct s as [w tr]. cbn [world trace].
  destruct (retry_loop_cases c body 5 w tr None)
    as (errs & w1 & Hf & Hall & Hcases).
  exists errs, w1. split; [exact Hf|]. split; [exact Hall|].
  destruct Hcases as [[Hlen E] | [H | H]]; [left | right; left | right; right];
    trivial.
  destruct (exists_last (l := errs)) as (front & cause & ->);
    [intros ->; discriminate|].
  exists front, cause. split; [reflexivity|]. split; [exact Hlen|].
  unfold retry. rewrite E, last_map_Some. now rewrite Errorf_retried.
Qed.

(** Building a transport adds to the trace the call for the system pool
    and reads of files. *)
Lemma range_trace paths :
  forall pool s,
  exists read,
    trace (snd (range_CACertPaths pool paths s)) = trace s ++ reads read.
Proof.
  induction paths as [|path paths IH]; intros pool s.
  - exists []. cbn. now rewrite app_nil_r.
  - cbn [range_CACertPaths]. unfold bind at 1. rewrite invoke_observe.
    destruct (ioutil_ReadFile path (world s)) as [certs|err].
    + destruct (AppendCertsFromPEM pool certs) as [pool1 [|]]; cbn [negb].
      * destruct (IH pool1 {| world := world s;
                              trace := trace s ++ [Call (call_ReadFile path)] |})
          as (read & E).
        exists (path :: read). rewrite E. cbn [trace reads map].
        now rewrite <- app_assoc.
      * now exists [path].
    + now exists [path].
Qed.

Lemma newHTTPTransport_trace (i : Registry) s :
  exists read,
    trace (snd (newHTTPTransport i s))
    = trace s ++ Call call_SystemCertPool :: reads read.
Proof.
  destruct s as [w tr]. rewrite newHTTPTransport_unfold. unfold bind.
  destruct (range_trace (CACertPaths (opts i)) (start_pool w)
              {| world := w; trace := tr ++ [Call call_SystemCertPool] |})
    as (read & E).
  exists read.
  destruct (range_CACertPaths _ _ _) as [[pool|err] s1]; unfold ret;
    cbn [snd trace] in *; rewrite E; now rewrite <- app_assoc.
Qed.

(** X9: when the transport cannot be built, each of the six operations
    returns the build's error as it is, without a prefix, and stops there:
    the credentials are not resolved and the registry is not called. *)
Theorem transport_failure_surfaces (i : Registry) s err s1 :
  newHTTPTransport i s = (Err err, s1) ->
  (forall ref, Generic i ref s = (Err err, s1)) /\
  (forall ref, Image i ref s = (Err err, s1)) /\
  (forall ref, Index i ref s = (Err err, s1)) /\
  (forall repo, ListTags i repo s = (Err err, s1)) /\
  (forall ref img, WriteImage i ref img s = (Some err, s1)) /\
  (forall ref idx, WriteIndex i ref idx s = (Some err, s1)) /\
  world s1 = world s /\
  network_calls (trace s1) = network_calls (trace s) /\
  (forall res, ~ In (Call (call_DefaultKeychain_Resolve res)) (trace s) ->
               ~ In (Call (call_DefaultKeychain_Resolve res)) (trace s1)).
Proof.
  intros Ht.
  destruct (local_run _ _ _ _ (local_newHTTPTransport i) Ht) as (Hw & Hn & _).
  repeat match goal with |- _ /\ _ => split end; trivial.
  - intros ref. unfold Generic, imageOpts, bind. now rewrite Ht.
  - intros ref. unfold Image, imageOpts, bind. now rewrite Ht.
  - intros ref. unfold Index, imageOpts, bind. now rewrite Ht.
  - intros repo. unfold ListTags, bind. now rewrite Ht.
  - intros ref img. unfold WriteImage, bind. now rewrite Ht.
  - intros ref idx. unfold WriteIndex, bind. now rewrite Ht.
  - intros res Hnot Hin.
    destruct (newHTTPTransport_trace i s) as (paths & E).
    rewrite Ht in E. cbn [snd] in E. rewrite E in Hin.
    apply in_app_or in Hin as [Hin | [Hin | Hin]];
      try contradiction; try discriminate.
    unfold reads in Hin. apply in_map_iff in Hin as (path & Hp & _).
    discriminate.
Qed.

(** X10: every run of [WriteImage] is one of five, and each names the
    failure it comes from. The transport build fails: that error, as it
    is. The default keychain fails with [cause] for the registry of the
    reference: "Getting auth details: <cause>". Otherwise the write call
    [remote.Write(ref, img, WithAuth(auth), WithTransport(httpTran))] is
    run from the state the resolution left, and fails with [errs], none
    unauthorized: if these are five, the result is
    "Writing image: Retried 5 times: <the fifth>"; if fewer and the next
    answer is nil, the result is nil; if fewer and the next answer is an
    unauthorized [cause], the result is
    "Writing image: Non-retryable error: <cause>". [WriteIndex] is the
    same with [remote.WriteIndex] and the prefix "Writing image index: ". *)
Theorem write_error_kinds (i : Registry) (ref : Reference) s :
  (forall img,
     (exists err s1,
        newHTTPTransport i s = (Err err, s1) /\
        WriteImage i ref img s = (Some err, s1))
     \/
     (exists httpTran s1 cause s2,
        newHTTPTransport i s = (Ok httpTran, s1) /\
        Resolve (registryKeychain i) (repo_Registry (ref_Context ref)) s1
        = (Err cause, s2) /\
        DefaultKeychain_Resolve (repo_Registry (ref_Context ref)) (world s)
        = Err cause /\
        WriteImage i ref img s
        = (Some (errorString ("Getting auth details: " ++ Error cause)), s2))
     \/
     (exists httpTran s1 auth s2 errs w1,
        newHTTPTransport i s = (Ok httpTran, s1) /\
        Resolve (registryKeychain i) (repo_Registry (ref_Context ref)) s1
        = (Ok auth, s2) /\
        let os := [WithAuth auth; WithTransport httpTran] in
        let c := call_regremote_Write ref img os in
        fails (regremote_Write ref img os) (world s2) errs w1 /\
        Forall (fun err => unauthorized err = false) errs /\
        ((exists front cause,
            errs = front ++ [cause] /\ List.length errs = 5%nat /\
            WriteImage i ref img s
            = (Some (errorString
                       ("Writing image: Retried 5 times: " ++ Error cause)),
               {| world := w1; trace := trace s2 ++ failed_attempts c 5 |}))
         \/
         ((List.length errs < 5)%nat /\
          exists w2,
            regremote_Write ref img os w1 = (None, w2) /\
            WriteImage i ref img s
            = (None,
               {| world := w2;
                  trace := trace s2 ++ failed_attempts c (List.length errs)
                                    ++ [Call c] |}))
         \/
         ((List.length errs < 5)%nat /\
          exists cause w2,
            regremote_Write ref img os w1 = (Some cause, w2) /\
            unauthorized cause = true /\
            WriteImage i ref img s
            = (Some (errorString
                       ("Writing image: Non-retryable error: " ++ Error cause)),
               {| world := w2;
                  trace := trace s2 ++ failed_attempts c (List.length errs)
                                    ++ [Call c] |}))))) /\
  (forall idx,
     (exists err s1,
        newHTTPTransport i s = (Err err, s1) /\
        WriteIndex i ref idx s = (Some err, s1))
     \/
     (exists httpTran s1 cause s2,
        newHTTPTransport i s = (Ok httpTran, s1) /\
        Resolve (registryKeychain i) (repo_Registry (ref_Context ref)) s1
        = (Err cause, s2) /\
        DefaultKeychain_Resolve (repo_Registry (ref_Context ref)) (world s)
        = Err cause /\
        WriteIndex i ref idx s
        = (Some (errorString ("Getting auth details: " ++ Error cause)), s2))
     \/
     (exists httpTran s1 auth s2 errs w1,
        newHTTPTransport i s = (Ok httpTran, s1) /\
        Resolve (registryKeychain i) (repo_Registry (ref_Context ref)) s1
        = (Ok auth, s2) /\
        let os := [WithAuth auth; WithTransport httpTran] in
        let c := call_regremote_WriteIndex ref idx os in
        fails (regremote_WriteIndex ref idx os) (world s2) errs w1 /\
        Forall (fun err => unauthorized err = false) errs /\
        ((exists front cause,
            errs = front ++ [cause] /\ List.length errs = 5%nat /\
            WriteIndex i ref idx s
            = (Some (errorString
                       ("Writing image index: Retried 5 times: " ++ Error cause)),
               {| world := w1; trace := trace s2 ++ failed_attempts c 5 |}))
         \/
         ((List.length errs < 5)%nat /\
          exists w2,
            regremote_WriteIndex ref idx os w1 = (None, w2) /\
            WriteIndex i ref idx s
            = (None,
               {| world := w2;
                  trace := trace s2 ++ failed_attempts c (List.length errs)
                                    ++ [Call c] |}))
         \/
         ((List.length errs < 5)%nat /\
          exists cause w2,
            regremote_WriteIndex ref idx os w1 = (Some cause, w2) /\
            unauthorized cause = true /\
            WriteIndex i ref idx s
            = (Some (errorString
                       ("Writing image index: Non-retryable error: " ++ Error cause)),
               {| world := w2;
                  trace := trace s2 ++ failed_attempts c (List.length errs)
                                    ++ [Call c] |}))))).
Proof.
  split.
  - intros img. unfold WriteImage, bind.
    destruct (newHTTPTransport i s) as [[httpTran|err] s1] eqn:Ht;
      [|left; now exists err, s1].
    destruct (Resolve _ _ s1) as [[auth|cause] s2] eqn:Hr.
    + right; right.
      destruct (retry_outcomes i
        (call_regremote_Write ref img [WithAuth auth; WithTransport httpTran])
        (regremote_Write ref img [WithAuth auth; WithTransport httpTran]) s2)
        as (errs & w1 & Hf & Hall & Hcases).
      unfold operation in Hcases.
      exists httpTran, s1, auth, s2, errs, w1.
      split; [reflexivity|]. split; [exact Hr|]. cbv zeta.
      split; [exact Hf|]. split; [exact Hall|].
      destruct Hcases as [(front & cause & He & Hlen & E)
                         | [[Hlen (w2 & Hb & E)]
                           | [Hlen (cause & w2 & Hb & Hu & E)]]].
      * left. exists front, cause. split; [exact He|]. split; [exact Hlen|].
        rewrite E. unfold ret. now rewrite Errorf_writing_image.
      * right; left. split; [exact Hlen|]. exists w2. split; [exact Hb|].
        now rewrite E.
      * right; right. split; [exact Hlen|]. exists cause, w2.
        split; [exact Hb|]. split; [exact Hu|].
        rewrite E. unfold ret. now rewrite Errorf_writing_image.
    + right; left. exists httpTran, s1, cause, s2.
      split; [reflexivity|]. split; [exact Hr|].
      apply Resolve_Err_inv in Hr as (_ & _ & _ & Hd).
      destruct (local_run _ _ _ _ (local_newHTTPTransport i) Ht) as (Hw & _).
      rewrite <- Hw. split; [exact Hd|]. unfold ret.
      now rewrite Errorf_auth.
  - intros idx. unfold WriteIndex, bind.
    destruct (newHTTPTransport i s) as [[httpTran|err] s1] eqn:Ht;
      [|left; now exists err, s1].
    destruct (Resolve _ _ s1) as [[auth|cause] s2] eqn:Hr.
    + right; right.
      destruct (retry_outcomes i
        (call_regremote_WriteIndex ref idx [WithAuth auth; WithTransport httpTran])
        (regremote_WriteIndex ref idx [WithAuth auth; WithTransport httpTran]) s2)
        as (errs & w1 & Hf & Hall & Hcases).
      unfold operation in Hcases.
      exists httpTran, s1, auth, s2, errs, w1.
      split; [reflexivity|]. split; [exact Hr|]. cbv zeta.
      split; [exact Hf|]. split; [exact Hall|].
      destruct Hcases as [(front & cause & He & Hlen & E)
                         | [[Hlen (w2 & Hb & E)]
                           | [Hlen (cause & w2 & Hb & Hu & E)]]].
      * left. exists front, cause. split; [exact He|]. split; [exact Hlen|].
        rewrite E. unfold ret. now rewrite Errorf_writing_index.
      * right; left. split; [exact Hlen|]. exists w2. split; [exact Hb|].
        now rewrite E.
      * right; right. split; [exact Hlen|]. exists cause, w2.
        split; [exact Hb|]. split; [exact Hu|].
        rewrite E. unfold ret. now rewrite Errorf_writing_index.
    + right; left. exists httpTran, s1, cause, s2.
      split; [reflexivity|]. split; [exact Hr|].
      apply Resolve_Err_inv in Hr as (_ & _ & _ & Hd).
      destruct (local_run _ _ _ _ (local_newHTTPTransport i) Ht) as (Hw & _).
      rewrite <- Hw. split; [exact Hd|]. unfold ret.
      now rewrite Errorf_auth.
Qed.

(** X11: a write calls the registry at most five times and sleeps at most
    five times, whatever the configuration and whatever the registry
    answers. *)
Theorem writes_bounded (i : Registry) (ref : Reference) s :
  (forall img,
     (List.length (network_calls (trace (snd (WriteImage i ref img s))))
      <= List.length (network_calls (trace s)) + 5)%nat /\
     (List.length (sleeps (trace (snd (WriteImage i ref img s))))
      <= List.length (sleeps (trace s)) + 5)%nat) /\
  (forall idx,
     (List.length (network_calls (trace (snd (WriteIndex i ref idx s))))
      <= List.length (network_calls (trace s)) + 5)%nat /\
     (List.length (sleeps (trace (snd (WriteIndex i ref idx s))))
      <= List.length (sleeps (trace s)) + 5)%nat).
Proof.
  split.
  - intros img. unfold WriteImage, bind.
    destruct (newHTTPTransport i s) as [[httpTran|err] s1] eqn:Ht;
      destruct (local_run _ _ _ _ (local_newHTTPTransport i) Ht) as (_ & Hn & Hs);
      [|unfold ret; cbn [snd]; rewrite Hn, Hs; lia].
    destruct (Resolve _ _ s1) as [[auth|cause] s2] eqn:Hr;
      destruct (local_run _ _ _ _ (local_Resolve _ _) Hr) as (_ & Hn' & Hs');
      [|unfold ret; cbn [snd]; rewrite Hn', Hs', Hn, Hs; lia].
    destruct (retry_loop_bounds
        (call_regremote_Write ref img [WithAuth auth; WithTransport httpTran])
        (regremote_Write ref img [WithAuth auth; WithTransport httpTran])
        5 None s2) as [Hbs Hbn].
    unfold operation in Hbs, Hbn. unfold retry.
    destruct (retry_loop 5 _ None s2) as [[e|] s3]; unfold ret;
      cbn [snd] in *; rewrite Hn', Hs', Hn, Hs in *; lia.
  - intros idx. unfold WriteIndex, bind.
    destruct (newHTTPTransport i s) as [[httpTran|err] s1] eqn:Ht;
      destruct (local_run _ _ _ _ (local_newHTTPTransport i) Ht) as (_ & Hn & Hs);
      [|unfold ret; cbn [snd]; rewrite Hn, Hs; lia].
    destruct (Resolve _ _ s1) as [[auth|cause] s2] eqn:Hr;
      destruct (local_run _ _ _ _ (local_Resolve _ _) Hr) as (_ & Hn' & Hs');
      [|unfold ret; cbn [snd]; rewrite Hn', Hs', Hn, Hs; lia].
    destruct (retry_loop_bounds
        (call_regremote_WriteIndex ref idx [WithAuth auth; WithTransport httpTran])
        (regremote_WriteIndex ref idx [WithAuth auth; WithTransport httpTran])
        5 None s2) as [Hbs Hbn].
    unfold operation in Hbs, Hbn. unfold retry.
    destruct (retry_loop 5 _ None s2) as [[e|] s3]; unfold ret;
      cbn [snd] in *; rewrite Hn', Hs', Hn, Hs in *; lia.
Qed.

(** X12: once the transport is built and the credentials are resolved, a
    write the registry accepts at the first attempt returns nil after that
    one call, without a sleep; a write it refuses as unauthorized returns
    "Writing image: Non-retryable error: <failure>" after that one call.
    The call carries the resolved authenticator and the built transport. *)
Theorem WriteImage_first_attempt (i : Registry) ref img s httpTran s1 auth s2 :
  newHTTPTransport i s = (Ok httpTran, s1) ->
  Resolve (registryKeychain i) (repo_Registry (ref_Context ref)) s1
  = (Ok auth, s2) ->
  let os := [WithAuth auth; WithTransport httpTran] in
  (forall w3,
     regremote_Write ref img os (world s2) = (None, w3) ->
     WriteImage i ref img s
     = (None,
        {| world := w3;
           trace := trace s2 ++ [Call (call_regremote_Write ref img os)] |})) /\
  (forall err w3,
     regremote_Write ref img os (world s2) = (Some err, w3) ->
     unauthorized err = true ->
     WriteImage i ref img s
     = (Some (errorString
                ("Writing image: Non-retryable error: " ++ Error err)),
        {| world := w3;
           trace := trace s2 ++ [Call (call_regremote_Write ref img os)] |})).
Proof.
  intros Ht Hr os. destruct s2 as [w2 tr2]. cbn [world trace].
  split.
  - intros w3 Hb. unfold WriteImage, bind. rewrite Ht, Hr. fold os.
    unfold retry.
    change (invoke (call_regremote_Write ref img os) (regremote_Write ref img os))
      with (operation (call_regremote_Write ref img os) (regremote_Write ref img os)).
    now rewrite (retry_step_success _ _ 4 None w2 tr2 w3 Hb).
  - intros err w3 Hb Hu. unfold WriteImage, bind. rewrite Ht, Hr. fold os.
    unfold retry.
    change (invoke (call_regremote_Write ref img os) (regremote_Write ref img os))
      with (operation (call_regremote_Write ref img os) (regremote_Write ref img os)).
    rewrite (retry_step_unauthorized _ _ 4 None w2 tr2 err w3 Hb Hu).
    unfold ret. now rewrite Errorf_writing_image.
Qed.

(** X13: a read returns the answer of its registry call unchanged, success
    or failure: [ListTags], once the credentials are resolved, adds no
    prefix to a registry failure (unlike the writes), and [Generic]
    returns the descriptor of what [remote.Get] found. *)
Theorem reads_pass_through (i : Registry) s httpTran s1 :
  newHTTPTransport i s = (Ok httpTran, s1) ->
  (forall repo auth s2 r w3,
     Resolve (registryKeychain i) (repo_Registry repo) s1 = (Ok auth, s2) ->
     let os := [WithAuth auth; WithTransport httpTran] in
     regremote_List repo os (world s2) = (r, w3) ->
     ListTags i repo s
     = (r, {| world := w3;
              trace := trace s2 ++ [Call (call_regremote_List repo os)] |})) /\
  (let os := [WithTransport httpTran; WithAuthFromKeychain (registryKeychain i)] in
   (forall ref r w2,
      regremote_Image ref os (world s1) = (r, w2) ->
      Image i ref s
      = (r, {| world := w2;
               trace := trace s1 ++ [Call (call_regremote_Image ref os)] |})) /\
   (forall ref r w2,
      regremote_Index ref os (world s1) = (r, w2) ->
      Index i ref s
      = (r, {| world := w2;
               trace := trace s1 ++ [Call (call_regremote_Index ref os)] |})) /\
   (forall ref desc w2,
      regremote_Get ref os (world s1) = (Ok desc, w2) ->
      Generic i ref s
      = (Ok (remote_Descriptor_Descriptor desc),
         {| world := w2;
            trace := trace s1 ++ [Call (call_regremote_Get ref os)] |}))).
Proof.
  intros Ht. split; [|split; [|split]].
  - intros repo auth s2 r w3 Hr os Hl. unfold ListTags, bind. rewrite Ht, Hr.
    fold os. unfold invoke. now rewrite Hl.
  - intros ref r w2 Hg. unfold Image, imageOpts, bind. rewrite Ht.
    unfold ret, invoke. now rewrite Hg.
  - intros ref r w2 Hg. unfold Index, imageOpts, bind. rewrite Ht.
    unfold ret, invoke. now rewrite Hg.
  - intros ref desc w2 Hg. unfold Generic, imageOpts, bind. rewrite Ht.
    unfold ret, invoke. now rewrite Hg.
Qed.






End Behaviour.

(** ** The properties at work in the example world *)

Section Examples.

#[local] Existing Instance Example.types.
#[local] Existing Instance Example.library.

Import Example.

(** With username, token and the anonymous flag all set, Basic wins. *)
Lemma Resolve_precedence_witness :
  Resolve (registryKeychain (NewRegistry all_set)) private_host (start [])
  = (Ok (Basic "u" "p"), start []).
Proof.
  apply (proj1 (Resolve_precedence all_set private_host (start []))).
  discriminate.
Defined.

(** An unauthorized answer to the first attempt: one call, no sleep. *)
Lemma retry_unauthorized_stops_witness :
  retry (NewRegistry plain) (operation push next_answer)
    (start [Some denied; None])
  = (Some (errorString
             "Non-retryable error: UNAUTHORIZED: authentication required"),
     {| world := [None]; trace := [Call push] |}).
Proof.
  refine (retry_unauthorized_stops (NewRegistry plain) push
            next_answer [] denied [Some denied; None] [Some denied; None] [None] []
            _ _ _ _ _).
  - constructor.
  - constructor.
  - simpl; lia.
  - reflexivity.
  - reflexivity.
Defined.

(** Five failures: the fifth one's message is reported, after five calls. *)
Lemma retry_exhausted_witness :
  fst (retry (NewRegistry plain) (operation push next_answer)
         (start [Some busy; Some bare; Some reset; Some busy; Some reset]))
  = Some (errorString "Retried 5 times: connection reset by peer") /\
  calls (trace (snd
    (retry (NewRegistry plain) (operation push next_answer)
       (start [Some busy; Some bare; Some reset; Some busy; Some reset]))))
  = [push; push; push; push; push].
Proof.
  refine (proj2 (retry_exhausted (NewRegistry plain) push next_answer
                   [Some busy; Some bare; Some reset; Some busy; Some reset] [])
            busy bare reset busy reset [] _ _).
  - repeat (eapply fails_cons; [reflexivity|]). apply fails_nil.
  - repeat constructor.
Defined.

(** Four failures and a success: four sleeps of one second. *)
Lemma retry_succeeds_on_fifth_witness :
  retry (NewRegistry plain) (operation push next_answer)
    (start [Some reset; Some busy; Some bare; Some reset; None])
  = (None,
     {| world := [];
        trace := [Call push; Sleep 1000000000%Z; Call push; Sleep 1000000000%Z;
                  Call push; Sleep 1000000000%Z; Call push; Sleep 1000000000%Z;
                  Call push] |}).
Proof.
  refine (proj1 (retry_succeeds_on_fifth (NewRegistry plain) push next_answer
                   reset busy bare reset
                   [Some reset; Some busy; Some bare; Some reset; None]
                   [None] [] [] _ _ _)).
  - repeat (eapply fails_cons; [reflexivity|]). apply fails_nil.
  - repeat constructor.
  - reflexivity.
Defined.

(** Five failures: five sleeps, the last one after the fifth failure. *)
Lemma retry_exhausted_sleeps_witness :
  sleeps (trace (snd
    (retry (NewRegistry plain) (operation push next_answer)
       (start [Some reset; Some reset; Some reset; Some reset; Some reset]))))
  = [1000000000; 1000000000; 1000000000; 1000000000; 1000000000]%Z.
Proof.
  refine (proj2 (retry_exhausted_sleeps (NewRegistry plain) push next_answer
                   reset reset reset reset reset
                   [Some reset; Some reset; Some reset; Some reset; Some reset]
                   [] [] _ _)).
  - repeat (eapply fails_cons; [reflexivity|]). apply fails_nil.
  - repeat constructor.
Defined.

(** A transport error without sub-errors, then one with another code, are
    both retried; the third attempt succeeds. *)
Lemma retry_other_transport_errors_witness :
  retry (NewRegistry plain) (operation push next_answer)
    (start [Some bare; Some busy; None])
  = (None,
     {| world := [];
        trace := [Call push; Sleep 1000000000%Z; Call push; Sleep 1000000000%Z;
                  Call push] |}).
Proof.
  refine (proj1 (retry_other_transport_errors (NewRegistry plain) push next_answer
                   [Some bare; Some busy; None] [])
            [bare; busy] [None] [] _ _ _ _).
  - repeat (eapply fails_cons; [reflexivity|]). apply fails_nil.
  - constructor; [|constructor; [|constructor]].
    + eexists; split; [reflexivity|]. left; reflexivity.
    + eexists; split; [reflexivity|]. right. do 2 eexists.
      split; [reflexivity | discriminate].
  - simpl; lia.
  - reflexivity.
Defined.

(** The second of three CA files is missing: the build fails and names it,
    after reading the first two files in order. *)
Lemma newHTTPTransport_trust_pool_witness :
  newHTTPTransport (NewRegistry missing_ca) (start [])
  = (Err (errorString
            "Reading CA certificates from 'missing.pem': open missing.pem: no such file or directory"),
     {| world := [];
        trace := [Call call_SystemCertPool; Call (call_ReadFile "ca.pem");
                  Call (call_ReadFile "missing.pem")] |}).
Proof.
  refine (proj1 (proj2 (proj2 (proj2
            (newHTTPTransport_trust_pool (NewRegistry missing_ca) [] []))))
            ["ca.pem"] "missing.pem" ["notes.txt"] [[Byte.x2d; Byte.x2d]]
            (errorString "open missing.pem: no such file or directory") _ _ _).
  - reflexivity.
  - eapply appended_cons; [reflexivity | reflexivity | apply appended_nil].
  - reflexivity.
Defined.

(** With [VerifyCerts] false verification is skipped, and the pool holds
    the CA file's certificate. *)
Lemma newHTTPTransport_tls_config_witness :
  exists t s',
    newHTTPTransport (NewRegistry with_ca) (start []) = (Ok t, s') /\
    InsecureSkipVerify (TLSClientConfig t) = true /\
    RootCAs (TLSClientConfig t) = [[Byte.x2d; Byte.x2d]].
Proof.
  eexists. eexists. split; [lazy; reflexivity|].
  split; [|reflexivity].
  refine (proj1 (newHTTPTransport_tls_config (NewRegistry with_ca) [] [] _ _ _)).
  lazy; reflexivity.
Defined.

(** No stored login for the registry: the write fails before any network
    call. *)
Lemma auth_failure_fails_fast_witness :
  WriteImage (NewRegistry plain) private_ref tt (start [None])
  = (Some (errorString "Getting auth details: no credentials"),
     {| world := [None];
        trace := [Call call_SystemCertPool;
                  Call (call_DefaultKeychain_Resolve private_host)] |}).
Proof.
  refine (proj1 (proj1 (auth_failure_fails_fast (NewRegistry plain) (start [None])
                          _ _ _) private_ref tt (errorString "no credentials")
                   {| world := [None];
                      trace := [Call call_SystemCertPool;
                                Call (call_DefaultKeychain_Resolve private_host)] |}
                   _)).
  - lazy; reflexivity.
  - reflexivity.
Defined.

(** A write that fails five times reports the retry loop's error under
    its own prefix. *)
Lemma retry_wraps_only_writes_witness :
  fst (WriteImage (NewRegistry with_ca) private_ref tt
         (start [Some reset; Some reset; Some reset; Some reset; Some reset]))
  = Some (errorString
            "Writing image: Retried 5 times: connection reset by peer").
Proof.
  refine (f_equal fst
            (proj1 (proj2 (proj2 (proj2 (proj2
               (retry_wraps_only_writes (NewRegistry with_ca))))))
               private_ref tt
               (start [Some reset; Some reset; Some reset; Some reset; Some reset])
               _ _ _ _
               (Some (errorString "Retried 5 times: connection reset by peer"))
               _ _ _ _)).
  - lazy; reflexivity.
  - lazy; reflexivity.
  - lazy; reflexivity.
Defined.

(** C4 as stated fails for [Generic]: with no credentials configured and
    no stored login for the registry, resolving the credentials fails with
    "no credentials", yet [Generic] calls the registry library and returns
    that failure without the "Getting auth details: " prefix. *)
Lemma Generic_auth_failure_unprefixed :
  ~ (forall cause,
       fst (Resolve (registryKeychain (NewRegistry plain)) private_host (start []))
       = Err cause ->
       fst (Generic (NewRegistry plain) private_ref (start []))
       = Err (errorString ("Getting auth details: " ++ Error cause)) /\
       network_calls (trace (snd (Generic (NewRegistry plain) private_ref (start []))))
       = network_calls (trace (start []))).
Proof.
  intros H.
  destruct (H (errorString "no credentials") eq_refl) as [Hmsg _].
  vm_compute in Hmsg. discriminate Hmsg.
Qed.

(** What [Generic] does there. *)
Lemma Generic_auth_failure_run :
  Generic (NewRegistry plain) private_ref (start [])
  = (Err (errorString "no credentials"),
     {| world := [];
        trace := [Call call_SystemCertPool;
                  Call (call_regremote_Get private_ref
                          [WithTransport
                             {| Proxy := ProxyFromEnvironment;
                                DialContext := {| Timeout := 30000000000%Z;
                                                  KeepAlive := 30000000000%Z;
                                                  DualStack := true |};
                                MaxIdleConns := 100%Z;
                                IdleConnTimeout := 90000000000%Z;
                                TLSHandshakeTimeout := 10000000000%Z;
                                ResponseHeaderTimeout := 10000000000%Z;
                                ExpectContinueTimeout := 1000000000%Z;
                                TLSClientConfig := {| RootCAs := [];
                                                      InsecureSkipVerify := false |} |};
                           WithAuthFromKeychain {| kopts := plain |}])] |}).
Proof. reflexivity. Qed.

(** Two failures, then a success at the third attempt: two sleeps. *)
Lemma retry_recovers_witness :
  fst (retry (NewRegistry plain) (operation push next_answer)
         (start [Some reset; Some bare; None])) = None /\
  world (snd (retry (NewRegistry plain) (operation push next_answer)
                (start [Some reset; Some bare; None]))) = [] /\
  sleeps (trace (snd (retry (NewRegistry plain) (operation push next_answer)
                        (start [Some reset; Some bare; None]))))
  = [1000000000; 1000000000]%Z /\
  calls (trace (snd (retry (NewRegistry plain) (operation push next_answer)
                       (start [Some reset; Some bare; None]))))
  = [push; push; push].
Proof.
  refine (retry_recovers (NewRegistry plain) push next_answer [reset; bare]
            [Some reset; Some bare; None] [None] [] [] _ _ _ _).
  - repeat (eapply fails_cons; [reflexivity|]). apply fails_nil.
  - repeat constructor.
  - simpl; lia.
  - reflexivity.
Defined.

(** The settings of a transport built with a CA file. *)
Lemma newHTTPTransport_settings_witness :
  exists t s',
    newHTTPTransport (NewRegistry with_ca) (start []) = (Ok t, s') /\
    Timeout (DialContext t) = 30000000000%Z /\
    MaxIdleConns t = 100%Z.
Proof.
  eexists. eexists. split; [lazy; reflexivity|].
  refine ((fun H => conj (proj1 (proj2 H)) (proj1 (proj2 (proj2 (proj2 (proj2 H))))))
            (newHTTPTransport_settings (NewRegistry with_ca) (start []) _ _ _)).
  lazy; reflexivity.
Defined.

(** No credentials and no stored login: resolving fails. *)
Lemma Resolve_fails_iff_witness :
  fst (Resolve (registryKeychain (NewRegistry plain)) private_host (start []))
  = Err (errorString "no credentials").
Proof.
  refine (proj2 (Resolve_fails_iff (registryKeychain (NewRegistry plain))
                   private_host (start []) (errorString "no credentials")) _).
  repeat split.
Defined.

(** A password without a username changes nothing. *)
Lemma Resolve_ignores_password_witness :
  Resolve (registryKeychain (NewRegistry stray_password)) private_host (start [])
  = Resolve (registryKeychain (NewRegistry plain)) private_host (start []).
Proof.
  refine (Resolve_ignores_password stray_password plain private_host (start [])
            _ _ _ _); reflexivity.
Defined.

(** A missing CA file fails a write with the build's own error, before the
    credentials are looked up. *)
Lemma transport_failure_surfaces_witness :
  WriteImage (NewRegistry missing_ca) private_ref tt (start [None])
  = (Some (errorString
             "Reading CA certificates from 'missing.pem': open missing.pem: no such file or directory"),
     {| world := [None];
        trace := [Call call_SystemCertPool; Call (call_ReadFile "ca.pem");
                  Call (call_ReadFile "missing.pem")] |}).
Proof.
  refine (proj1 (proj2 (proj2 (proj2 (proj2
            (transport_failure_surfaces (NewRegistry missing_ca) (start [None])
               _ _ _))))) private_ref tt).
  lazy; reflexivity.
Defined.

(** An unauthorized answer to the first write: one call, and the error
    under the write's prefix. *)
Lemma WriteImage_first_attempt_witness :
  fst (WriteImage (NewRegistry with_ca) private_ref tt (start [Some denied; None]))
  = Some (errorString
            "Writing image: Non-retryable error: UNAUTHORIZED: authentication required").
Proof.
  refine (f_equal fst
            (proj2 (WriteImage_first_attempt (NewRegistry with_ca) private_ref tt
                      (start [Some denied; None]) _ _ _ _ _ _)
               denied [None] _ _)).
  - lazy; reflexivity.
  - lazy; reflexivity.
  - reflexivity.
  - reflexivity.
Defined.

(** Listing tags returns the registry's list. *)
Lemma reads_pass_through_witness :
  fst (ListTags (NewRegistry with_ca) (ref_Context private_ref) (start []))
  = Ok ["latest"].
Proof.
  refine (f_equal fst
            (proj1 (reads_pass_through (NewRegistry with_ca) (start []) _ _ _)
               (ref_Context private_ref) _ _ (Ok ["latest"]) [] _ _)).
  - lazy; reflexivity.
  - lazy; reflexivity.
  - reflexivity.
Defined.

(** C7 as stated fails on the default: with the options left at their
    zero value, which is what the package works from when the caller sets
    nothing, [VerifyCerts] is false and the transport that is built skips
    verification; it is not enabled. *)
Lemma zero_value_skips_verification :
  ~ (forall t s',
       newHTTPTransport (NewRegistry RegistryOpts_zero) (start []) = (Ok t, s') ->
       InsecureSkipVerify (TLSClientConfig t) = false).
Proof.
  intros H.
  eassert (E : newHTTPTransport (NewRegistry RegistryOpts_zero) (start [])
               = (Ok _, _)) by (lazy; reflexivity).
  apply H in E. cbv in E. discriminate E.
Qed.

End Examples.
